(** * Dynamic consortium key manager: Shamir sharing with membership churn

    Shallow embedding of [dynamic_consortium_keys.py]: the [Polynomial]
    class (evaluation, Lagrange interpolation and its list helpers), the
    [Member] dataclass, the [ConsortiumKeyManager] operations and the
    module-level functions ([is_prime], [generate_safe_prime], [main]),
    followed by the properties of the design document that concern them and
    by further properties of the program.

    Conventions of the embedding.
    - Python integers are [Z]; [%] is [Z.modulo] (both take the sign of the
      divisor).  The modulus is never [0] in the program: the constructor
      takes it from [generate_safe_prime].  With a zero modulus Python
      raises [ZeroDivisionError] (and [pow(_, _, 0)] raises [ValueError])
      where [Z.modulo] returns a number, so the statements about the
      arithmetic are made for a non-zero modulus.
    - Exceptions are the [Raise] results of the [outcome] monad; [None] and
      [False] are ordinary return values.
    - The member dictionary is an association list in insertion order (the
      iteration order of a Python dict); a member is always stored under its
      own [id], so the key is the record's field.
    - [random.randrange] reads a stream of raw entropy supplied by the
      caller; [hashlib.sha256] is a parameter of the signing functions. *)

From Stdlib Require Import String.
From Stdlib Require Import ZArith List ListDec Bool Lia Permutation Setoid Morphisms.
From Stdlib Require Import Zdivisibility Zcong.
From Stdlib Require ZmodInv.
Import ListNotations.
Local Open Scope Z_scope.

(** ** Exceptions *)

Inductive exn : Type :=
| ValueError
| IndexError.

Inductive outcome (A : Type) : Type :=
| Return (a : A)
| Raise (e : exn).

Arguments Return {A} a.
Arguments Raise {A} e.

Definition bind {A B : Type} (m : outcome A) (k : A -> outcome B) : outcome B :=
  match m with
  | Return a => k a
  | Raise e => Raise e
  end.

Notation "x <- m ;; k" := (bind m (fun x => k))
  (at level 61, m at next level, right associativity).

Fixpoint mapM {A B : Type} (f : A -> outcome B) (l : list A) : outcome (list B) :=
  match l with
  | [] => Return []
  | a :: l' => b <- f a ;; bs <- mapM f l' ;; Return (b :: bs)
  end.

(** ** Built-ins used by the program *)

(** [enumerate(l)]: the elements paired with their positions. *)
Definition enumerate {A : Type} (l : list A) : list (nat * A) :=
  combine (seq 0 (length l)) l.

(** [l[k]] where the program does not guard the index. *)
Definition list_get (l : list Z) (k : nat) : outcome Z :=
  match nth_error l k with
  | Some v => Return v
  | None => Raise IndexError
  end.

(** [l[k] = v] in [multiply_terms], whose indices [i + j] stay below the
    length [len(p1) + len(p2) - 1] of the list it fills. *)
Fixpoint list_set (l : list Z) (k : nat) (v : Z) : list Z :=
  match l, k with
  | [], _ => []
  | _ :: l', O => v :: l'
  | a :: l', S k' => a :: list_set l' k' v
  end.

(** Three-argument [pow(base, e, m)]: modular power for [e >= 0]; for a
    negative exponent the power of the modular inverse, and [ValueError]
    when the base is not invertible modulo [m]. *)
Definition py_pow (base e m : Z) : outcome Z :=
  if e <? 0 then
    if Z.gcd base m =? 1
    then Return (Z.invmod base m ^ (- e) mod m)
    else Raise ValueError
  else Return (base ^ e mod m).

(** [l[:k]]: the first [k] elements, or all but the last [-k] when [k] is
    negative. *)
Definition slice_to {A : Type} (l : list A) (k : Z) : list A :=
  if k <? 0 then firstn (length l - Z.to_nat (- k)) l
  else firstn (Z.to_nat k) l.

(** [range(lo, hi)]. *)
Definition range (lo hi : Z) : list Z :=
  map (fun k => lo + Z.of_nat k) (seq 0 (Z.to_nat (hi - lo))).

(** [random.randrange(lo, hi)] on the raw random integer [r]: a value of
    [lo .. hi-1], every one of which is reached by some [r]; [ValueError]
    on an empty range. *)
Definition randrange (lo hi r : Z) : outcome Z :=
  if lo <? hi then Return (lo + r mod (hi - lo)) else Raise ValueError.

(** ** class Polynomial *)

Module Polynomial.

Record t : Type := mk { coefficients : list Z; prime : Z }.

Definition evaluate (self : t) (x : Z) : Z :=
  fst (fold_left
         (fun '(result, power) coeff =>
            ((result + coeff * power) mod prime self,
             (power * x) mod prime self))
         (coefficients self) (0, 1)).

Definition multiply_terms (p1 p2 : list Z) (prime : Z) : list Z :=
  fold_left
    (fun result '(i, a) =>
       fold_left
         (fun result '(j, b) =>
            list_set result (i + j)
              ((nth (i + j) result 0 + a * b) mod prime))
         (enumerate p2) result)
    (enumerate p1)
    (repeat 0 (length p1 + length p2 - 1)%nat).

Definition scalar_multiply (poly : list Z) (scalar prime : Z) : list Z :=
  map (fun coeff => (coeff * scalar) mod prime) poly.

Definition add_polynomials (p1 p2 : list Z) (prime : Z) : list Z :=
  map (fun i => (nth i p1 0 + nth i p2 0) mod prime)
      (seq 0 (Nat.max (length p1) (length p2))).

(** The inner loop of [interpolate] for the point at position [i]: the
    numerator polynomial and the denominator of the i-th Lagrange basis. *)
Definition basis (points : list (Z * Z)) (prime : Z) (i : nat) (x_i : Z)
  : list Z * Z :=
  fold_left
    (fun '(numerator, denominator) '(j, (x_j, _)) =>
       if Nat.eqb i j then (numerator, denominator)
       else (multiply_terms numerator [- x_j; 1] prime,
             (denominator * (x_i - x_j)) mod prime))
    (enumerate points) ([1], 1).

(** One iteration of the outer loop. *)
Definition interpolate_step (points : list (Z * Z)) (prime : Z)
  (acc : outcome (list Z)) (ip : nat * (Z * Z)) : outcome (list Z) :=
  let '(i, (x_i, y_i)) := ip in
  result <- acc ;;
  let '(numerator, denominator) := basis points prime i x_i in
  inv_denominator <- py_pow denominator (-1) prime ;;
  let scaled_numerator :=
    scalar_multiply numerator ((y_i * inv_denominator) mod prime) prime in
  Return (add_polynomials result scaled_numerator prime).

Definition interpolate (points : list (Z * Z)) (prime : Z) : outcome t :=
  result <- fold_left (interpolate_step points prime)
                      (enumerate points) (Return [0]) ;;
  Return (mk result prime).

End Polynomial.

(** ** dataclass Member *)

Module Member.

Record t : Type :=
  mk { id : Z; share : Z; public_key : Z; is_active : bool }.

Definition set_share (m : t) (s pk : Z) : t :=
  mk (id m) s pk (is_active m).

Definition set_is_active (m : t) (b : bool) : t :=
  mk (id m) (share m) (public_key m) b.

End Member.

(** ** The member dictionary *)

Definition dict := list Member.t.

(** [k in d] *)
Definition dict_mem (d : dict) (k : Z) : bool :=
  existsb (fun m => Member.id m =? k) d.

(** [d[k]] under a guard [k in d]. *)
Definition dict_get (d : dict) (k : Z) : option Member.t :=
  find (fun m => Member.id m =? k) d.

(** [d[m.id] = m]: replaces the entry in place, or appends a new key. *)
Fixpoint dict_set (d : dict) (m : Member.t) : dict :=
  match d with
  | [] => [m]
  | m' :: d' =>
      if Member.id m' =? Member.id m then m :: d' else m' :: dict_set d' m
  end.

(** [d[k].is_active = b] *)
Fixpoint dict_set_active (d : dict) (k : Z) (b : bool) : dict :=
  match d with
  | [] => []
  | m :: d' =>
      if Member.id m =? k then Member.set_is_active m b :: d'
      else m :: dict_set_active d' k b
  end.

(** ** class ConsortiumKeyManager *)

Module ConsortiumKeyManager.

Record t : Type :=
  mk { threshold : Z;
       prime : Z;
       members : dict;
       active_member_count : Z;
       master_secret : Z }.

Definition with_members (self : t) (d : dict) (count : Z) : t :=
  mk (threshold self) (prime self) d count (master_secret self).

(** The [threshold - 1] random coefficients drawn after [first] earlier
    draws of the entropy stream. *)
Definition random_coefficients (self : t) (rng : nat -> Z) (first : nat)
  : outcome (list Z) :=
  mapM (fun k => randrange 2 (prime self) (rng (first + k)%nat))
       (seq 0 (Z.to_nat (threshold self - 1))).

Definition setup_initial_shares (self : t) (n : Z) (rng : nat -> Z)
  : outcome t :=
  secret <- randrange 2 (prime self) (rng 0%nat) ;;
  rest <- random_coefficients self rng 1 ;;
  let poly := Polynomial.mk (secret :: rest) (prime self) in
  fold_left
    (fun acc i =>
       self <- acc ;;
       let share := Polynomial.evaluate poly i in
       public_key <- py_pow share 2 (prime self) ;;
       Return (with_members self
                 (dict_set (members self) (Member.mk i share public_key true))
                 (active_member_count self + 1)))
    (range 1 (n + 1))
    (Return (mk (threshold self) (prime self) (members self)
                (active_member_count self) secret)).

(** [__init__]; [p] is the value returned by [generate_safe_prime(256)].
    The last field is assigned by [setup_initial_shares]. *)
Definition init (threshold initial_members p : Z) (rng : nat -> Z)
  : outcome t :=
  if threshold >? initial_members then Raise ValueError
  else setup_initial_shares (mk threshold p [] 0 0) initial_members rng.

Fixpoint collect_loop (threshold : Z) (exclude : list Z) (ms : dict)
  (shares : list (Z * Z)) : list (Z * Z) :=
  match ms with
  | [] => shares
  | member :: ms' =>
      if Member.is_active member
         && negb (existsb (Z.eqb (Member.id member)) exclude)
      then
        let shares := shares ++ [(Member.id member, Member.share member)] in
        if Z.of_nat (length shares) >=? threshold then shares
        else collect_loop threshold exclude ms' shares
      else collect_loop threshold exclude ms' shares
  end.

Definition collect_threshold_shares (self : t) (exclude : list Z)
  : option (list (Z * Z)) :=
  let shares := collect_loop (threshold self) exclude (members self) [] in
  if Z.of_nat (length shares) >=? threshold self then Some shares else None.

(** [not shares]: [None] and the empty list are both falsy. *)
Definition falsy (shares : option (list (Z * Z))) : bool :=
  match shares with
  | None | Some [] => true
  | Some (_ :: _) => false
  end.

Definition add_member (self : t) (new_member_id : Z)
  : outcome (option Member.t * t) :=
  if dict_mem (members self) new_member_id then Return (None, self)
  else
    let shares := collect_threshold_shares self [] in
    if falsy shares then Return (None, self)
    else
      poly <- Polynomial.interpolate
                (match shares with Some l => l | None => [] end) (prime self) ;;
      let share := Polynomial.evaluate poly new_member_id in
      public_key <- py_pow share 2 (prime self) ;;
      let member := Member.mk new_member_id share public_key true in
      Return (Some member,
              with_members self (dict_set (members self) member)
                (active_member_count self + 1)).

Definition remove_member (self : t) (member_id : Z) (rng : nat -> Z)
  : outcome (bool * t) :=
  match dict_get (members self) member_id with
  | None => Return (false, self)
  | Some leaving =>
      if negb (Member.is_active leaving) then Return (false, self)
      else
        let shares := collect_threshold_shares self [member_id] in
        if falsy shares then Return (false, self)
        else
          poly <- Polynomial.interpolate
                    (match shares with Some l => l | None => [] end)
                    (prime self) ;;
          secret <- list_get (Polynomial.coefficients poly) 0 ;;
          rest <- random_coefficients self rng 0 ;;
          let new_poly := Polynomial.mk (secret :: rest) (prime self) in
          members' <-
            mapM (fun member =>
                    if negb (Member.id member =? member_id)
                       && Member.is_active member
                    then
                      let share :=
                        Polynomial.evaluate new_poly (Member.id member) in
                      public_key <- py_pow share 2 (prime self) ;;
                      Return (Member.set_share member share public_key)
                    else Return member)
                 (members self) ;;
          Return (true,
                  with_members self (dict_set_active members' member_id false)
                    (active_member_count self - 1))
  end.

Section Signing.

(** [int.from_bytes(hashlib.sha256(message.encode()).digest(), 'big')] *)
Variable sha256_int : string -> Z.

Definition signer_shares (self : t) (signers : list Z) : list (Z * Z) :=
  fold_left
    (fun shares signer_id =>
       match dict_get (members self) signer_id with
       | Some m =>
           if Member.is_active m
           then shares ++ [(signer_id, Member.share m)]
           else shares
       | None => shares
       end)
    (slice_to signers (threshold self)) [].

Definition sign_message (self : t) (message : string)
  (signers : list Z) : outcome (option Z) :=
  if Z.of_nat (length signers) <? threshold self then Return None
  else
    let msg_hash := sha256_int message in
    let shares := signer_shares self signers in
    if Z.of_nat (length shares) <? threshold self then Return None
    else
      poly <- Polynomial.interpolate shares (prime self) ;;
      secret <- list_get (Polynomial.coefficients poly) 0 ;;
      signature <- py_pow msg_hash secret (prime self) ;;
      Return (Some signature).

Definition verify_signature (self : t) (message : string)
  (signature : Z) : outcome bool :=
  let msg_hash := sha256_int message in
  expected <- py_pow msg_hash (master_secret self) (prime self) ;;
  Return (signature =? expected).

End Signing.

End ConsortiumKeyManager.

(** ** Module-level functions: primality and prime generation

    The functions below draw from the global random source; they are given
    the entropy stream [rng] and the position [pos] of the next unread
    draw, and return the position they reached. *)

(** [random.getrandbits(k)] on the raw random integer [r]. *)
Definition getrandbits (k r : Z) : outcome Z :=
  if k <? 0 then Raise ValueError else Return (r mod 2 ^ k).

(** [while s % 2 == 0: r += 1; s //= 2], cut off after [fuel] rounds; a
    positive [s] is halved fewer than [s] times ([halve_loop_spec]). *)
Fixpoint halve_loop (fuel : nat) (r s : Z) : Z * Z :=
  match fuel with
  | O => (r, s)
  | S fuel' =>
      if s mod 2 =? 0 then halve_loop fuel' (r + 1) (s / 2) else (r, s)
  end.

(** The inner [for ... else] of [is_prime]: [true] when the loop leaves by
    [break], [false] when it runs [count] times and reaches the [else]. *)
Fixpoint square_loop (count : nat) (x n : Z) : bool :=
  match count with
  | O => false
  | S count' =>
      let x := (x * x) mod n in
      if x =? n - 1 then true else square_loop count' x n
  end.

(** The [for _ in range(k)] loop of [is_prime]. *)
Fixpoint witness_loop (k : nat) (n r s : Z) (rng : nat -> Z) (pos : nat)
  : outcome (bool * nat) :=
  match k with
  | O => Return (true, pos)
  | S k' =>
      a <- randrange 2 (n - 1) (rng pos) ;;
      x <- py_pow a s n ;;
      if (x =? 1) || (x =? n - 1) then witness_loop k' n r s rng (S pos)
      else if square_loop (Z.to_nat (r - 1)) x n
           then witness_loop k' n r s rng (S pos)
           else Return (false, S pos)
  end.

(** Miller-Rabin primality test. *)
Definition is_prime (n k : Z) (rng : nat -> Z) (pos : nat)
  : outcome (bool * nat) :=
  if n <=? 3 then Return (n >? 1, pos)
  else if n mod 2 =? 0 then Return (false, pos)
  else
    let '(r, s) := halve_loop (Z.to_nat (n - 1)) 0 (n - 1) in
    witness_loop (Z.to_nat k) n r s rng pos.

(** [generate_safe_prime(bits)]: the [while True] loop, cut off after
    [fuel] candidates ([None]: still searching). *)
Fixpoint generate_safe_prime (fuel : nat) (bits : Z) (rng : nat -> Z)
  (pos : nat) : outcome (option (Z * nat)) :=
  match fuel with
  | O => Return None
  | S fuel' =>
      raw <- getrandbits bits (rng pos) ;;
      let p := Z.lor raw 1 in
      first <- is_prime p 5 rng (S pos) ;;
      if fst first then
        second <- is_prime ((p - 1) / 2) 5 rng (snd first) ;;
        if fst second then Return (Some (p, snd second))
        else generate_safe_prime fuel' bits rng (snd second)
      else generate_safe_prime fuel' bits rng (snd first)
  end.

(** ** main *)

(** What [main] prints after each step. *)
Record main_output : Type :=
  { initial_signature_valid : bool;
    new_member_added : bool;
    signature_with_new_member_valid : bool;
    member_removed : bool;
    signature_with_removed_member : bool;
    signature_with_remaining_members_valid : bool }.

Section Main.

Variable sha256_int : string -> Z.

(** [manager.verify_signature(message, signature)] as [main] calls it, on
    whatever [sign_message] returned: [None == expected] is [False]. *)
Definition verify_signed (self : ConsortiumKeyManager.t) (message : string)
  (signature : option Z) : outcome bool :=
  match signature with
  | Some s => ConsortiumKeyManager.verify_signature sha256_int self message s
  | None =>
      expected <- py_pow (sha256_int message)
                         (ConsortiumKeyManager.master_secret self)
                         (ConsortiumKeyManager.prime self) ;;
      Return false
  end.

(** ['Valid' if signature else 'Failed']: [None] and [0] are falsy. *)
Definition truthy (signature : option Z) : bool :=
  match signature with
  | Some s => negb (s =? 0)
  | None => false
  end.

(** [main], for the prime [p] the constructor generated and the entropy
    stream [rng] read afterwards (three draws by the setup, then two by the
    reshare). *)
Definition main (p : Z) (rng : nat -> Z) : outcome main_output :=
  manager <- ConsortiumKeyManager.init 3 5 p rng ;;
  let message := "Block #1000 checkpoint"%string in
  signature <- ConsortiumKeyManager.sign_message sha256_int manager message
                 [1; 2; 3] ;;
  valid1 <- verify_signed manager message signature ;;
  added <- ConsortiumKeyManager.add_member manager 6 ;;
  let new_member := fst added in
  let manager := snd added in
  signature <- ConsortiumKeyManager.sign_message sha256_int manager message
                 [1; 2; 3; 4] ;;
  valid2 <- verify_signed manager message signature ;;
  removed <- ConsortiumKeyManager.remove_member manager 1
               (fun k => rng (3 + k)%nat) ;;
  let success := fst removed in
  let manager := snd removed in
  signature <- ConsortiumKeyManager.sign_message sha256_int manager message
                 [1; 2; 3] ;;
  let valid3 := truthy signature in
  signature <- ConsortiumKeyManager.sign_message sha256_int manager message
                 [2; 3; 4] ;;
  valid4 <- verify_signed manager message signature ;;
  Return {| initial_signature_valid := valid1;
            new_member_added :=
              match new_member with Some _ => true | None => false end;
            signature_with_new_member_valid := valid2;
            member_removed := success;
            signature_with_removed_member := valid3;
            signature_with_remaining_members_valid := valid4 |}.

End Main.

Import ConsortiumKeyManager.

(** * Vocabulary of the properties *)

(** ** Polynomials and the field *)

(** The value at [x] of a coefficient list read as an integer polynomial. *)
Fixpoint peval (cs : list Z) (x : Z) : Z :=
  match cs with
  | [] => 0
  | c :: cs' => c + x * peval cs' x
  end.

(** A value already reduced modulo [p]. *)
Definition reduced (p v : Z) : Prop := v mod p = v.

(** The x-coordinates are pairwise distinct as elements of the field. *)
Definition distinct_points (p : Z) (points : list (Z * Z)) : Prop :=
  NoDup (map (fun q => fst q mod p) points).

(** Number of coefficients of the numerator of the [i]-th basis polynomial
    after [k] rounds of the inner loop. *)
Definition basis_length (i k : nat) : nat :=
  if (i <? k)%nat then k else S k.

(** Quotient of [cs] by [x - a] (synthetic division); the remainder is the
    value at [a]. *)
Fixpoint quotient (cs : list Z) (a : Z) : list Z :=
  match cs with
  | [] => []
  | _ :: cs' =>
      match cs' with
      | [] => []
      | _ :: _ => peval cs' a :: quotient cs' a
      end
  end.

(** Coefficient-wise difference of two lists of the same length. *)
Definition difference (R F : list Z) : list Z :=
  map (fun ab => fst ab - snd ab) (combine R F).

(** Trial division, to establish that a concrete modulus is prime. *)
Definition prime_check (p : Z) : bool :=
  (1 <? p) && forallb (fun n => negb (p mod n =? 0)) (range 2 p).

(** ** Members and the sharing invariant *)

(** The [(id, share)] pair a member contributes. *)
Definition pair_of (m : Member.t) : Z * Z := (Member.id m, Member.share m).

(** The members [collect_threshold_shares] may take a share from. *)
Definition eligible (exclude : list Z) (m : Member.t) : bool :=
  Member.is_active m && negb (existsb (Z.eqb (Member.id m)) exclude).

(** [consistent self F]: the state of a key manager whose active members
    hold points of the sharing polynomial [F] of [threshold] coefficients
    over the prime field, at pairwise distinct points of the field. *)
Record consistent (self : t) (F : list Z) : Prop :=
  { c_prime : Z.prime (prime self);
    c_threshold : 1 <= threshold self;
    c_degree : Z.of_nat (length F) = threshold self;
    c_keys : NoDup (map Member.id (members self));
    c_points :
      NoDup (map (fun m => Member.id m mod prime self)
                 (filter Member.is_active (members self)));
    c_shares :
      forall m, In m (members self) -> Member.is_active m = true ->
        Member.share m
        = Polynomial.evaluate (Polynomial.mk F (prime self)) (Member.id m) }.

(** [threshold] different active members. *)
Definition quorum (self : t) (ms : list Member.t) : Prop :=
  NoDup (map Member.id ms) /\
  (forall m, In m ms -> In m (members self) /\ Member.is_active m = true) /\
  Z.of_nat (length ms) = threshold self.

(** The member created for the evaluation point [i]. *)
Definition initial_member (F : list Z) (p i : Z) : Member.t :=
  let share := Polynomial.evaluate (Polynomial.mk F p) i in
  Member.mk i share (share ^ 2 mod p) true.

(** The member [add_member] builds for [new_member_id]. *)
Definition joined_member (F : list Z) (p new_member_id : Z) : Member.t :=
  initial_member F p new_member_id.

(** What the redistribution loop and the deactivation make of a member. *)
Definition refreshed (F' : list Z) (p member_id : Z) (m : Member.t) : Member.t :=
  if Member.id m =? member_id then Member.set_is_active m false
  else if Member.is_active m
       then let share := Polynomial.evaluate (Polynomial.mk F' p) (Member.id m) in
            Member.set_share m share (share ^ 2 mod p)
       else m.

(** ** Signers *)

(** [signer_id in self.members and self.members[signer_id].is_active] *)
Definition active_member (self : t) (signer_id : Z) : bool :=
  match dict_get (members self) signer_id with
  | Some m => Member.is_active m
  | None => false
  end.

(** The share stored for a key of the dictionary. *)
Definition share_of (self : t) (signer_id : Z) : Z :=
  match dict_get (members self) signer_id with
  | Some m => Member.share m
  | None => 0
  end.

(** The pair [sign_message] appends for an active signer. *)
Definition signer_pair (self : t) (signer_id : Z) : Z * Z :=
  (signer_id, share_of self signer_id).

(** ** A stale share against a reshared secret *)

(** The two coefficients drawn by the reshare come from the raw pair [r]. *)
Definition fresh_rng (r : Z * Z) (k : nat) : Z :=
  match k with
  | O => fst r
  | S _ => snd r
  end.

(** Set up with [t = 3], [n = 5], remove member 2, then compare the
    constant term interpolated from member 2's pre-removal pair and the
    current pairs of members [a] and [b] with the one interpolated from the
    current shares that [collect_threshold_shares] returns. *)
Definition stale_share_scenario (p : Z) (rng : nat -> Z) (a b : Z) (r : Z * Z)
  : outcome bool :=
  self <- init 3 5 p rng ;;
  removed <- remove_member self 2 (fresh_rng r) ;;
  let self' := snd removed in
  stale <- Polynomial.interpolate
             [signer_pair self 2; signer_pair self' a; signer_pair self' b] p ;;
  current <- Polynomial.interpolate
               (match collect_threshold_shares self' [] with
                | Some l => l
                | None => []
                end) p ;;
  stale_secret <- list_get (Polynomial.coefficients stale) 0 ;;
  current_secret <- list_get (Polynomial.coefficients current) 0 ;;
  Return (stale_secret =? current_secret).

(** The draws [r] for which the stale share reconstructs the secret. *)
Definition stale_share_recovers (p : Z) (rng : nat -> Z) (a b : Z) (r : Z * Z)
  : bool :=
  match stale_share_scenario p rng a b r with
  | Return v => v
  | Raise _ => false
  end.

(** ** Bookkeeping of the registry *)

(** [active_member_count] is the number of active members. *)
Definition well_counted (self : t) : Prop :=
  active_member_count self
  = Z.of_nat (length (filter Member.is_active (members self))).

(** Every stored public key is the square of the stored share. *)
Definition keys_paired (self : t) : Prop :=
  forall m, In m (members self) ->
    Member.public_key m = Member.share m ^ 2 mod prime self.

(** The sharing invariant together with the stored secret: [master_secret]
    is the constant term of the sharing polynomial. *)
Definition keyed (self : t) (F : list Z) : Prop :=
  consistent self F /\
  master_secret self = Polynomial.evaluate (Polynomial.mk F (prime self)) 0.

(** What the redistribution loop of [remove_member] makes of a member. *)
Definition redistributed (new_poly : Polynomial.t) (p member_id : Z)
  (m : Member.t) : Member.t :=
  if negb (Member.id m =? member_id) && Member.is_active m
  then
    let share := Polynomial.evaluate new_poly (Member.id m) in
    Member.set_share m share (share ^ 2 mod p)
  else m.

(** ** Concrete inputs

    A consortium of five members with threshold three over the field of
    23 elements, the states it reaches, and a smaller one over 7. *)

(** A fixed entropy stream. *)
Definition demo_rng (k : nat) : Z := Z.of_nat (3 * k + 4).

(** A stand-in for the hash of a message. *)
Definition demo_hash (message : string) : Z :=
  Z.of_nat (String.length message) + 5.

Definition demo_message : string := "Block #1000 checkpoint".

Definition state_of {A : Type} (default : A) (m : outcome A) : A :=
  match m with
  | Return a => a
  | Raise _ => default
  end.

Definition empty_manager : ConsortiumKeyManager.t := mk 0 0 [] 0 0.

Definition demo_manager : ConsortiumKeyManager.t :=
  Eval vm_compute in state_of empty_manager (init 3 5 23 demo_rng).

(** The manager after member 2 left. *)
Definition demo_without_2 : ConsortiumKeyManager.t :=
  Eval vm_compute in
    state_of empty_manager
      (removed <- remove_member demo_manager 2 demo_rng ;; Return (snd removed)).

(** The manager after member 1 left. *)
Definition demo_without_1 : ConsortiumKeyManager.t :=
  Eval vm_compute in
    state_of empty_manager
      (removed <- remove_member demo_manager 1 demo_rng ;; Return (snd removed)).

(** A consortium of three with threshold two over the field of 7 elements. *)
Definition small_manager : ConsortiumKeyManager.t :=
  Eval vm_compute in state_of empty_manager (init 2 3 7 demo_rng).





(** ** Proof steps *)

(** Closes a congruence whose sides are equal as ring expressions once the
    inner reductions are dropped. *)
Ltac eqm_ring :=
  rewrite ?Zmod_eqm; unfold eqm; f_equal; ring.

(** Small literals are pairwise distinct modulo a larger prime. *)
Ltac distinct_literals :=
  cbn [map]; rewrite ?Z.mod_small by lia;
  repeat (constructor; [cbn [In]; lia|]); constructor.

(** * Running the program on small inputs *)

Example evaluate_ex : Polynomial.evaluate (Polynomial.mk [5; 3; 2] 23) 4 = 3.
Proof. reflexivity. Qed.

Example multiply_terms_ex :
  Polynomial.multiply_terms [1; 2] [3; 4; 5] 23 = [3; 10; 13; 10].
Proof. reflexivity. Qed.

Example interpolate_ex :
  Polynomial.interpolate [(1, 10); (2, 19); (4, 3)] 23
  = Return (Polynomial.mk [5; 3; 2] 23).
Proof. vm_compute. reflexivity. Qed.

Example interpolate_dup_ex :
  Polynomial.interpolate [(1, 10); (1, 19)] 23 = Raise ValueError.
Proof. vm_compute. reflexivity. Qed.

(** * Polynomials over the integers modulo [p]

    The value of a coefficient list as an integer polynomial; the program's
    list operations are related to it modulo the prime. *)

#[local] Existing Instances eqm_setoid Zplus_eqm Zminus_eqm Zmult_eqm Zopp_eqm.

(** Loops over [enumerate(l)]: an invariant indexed by the position. *)
Lemma fold_left_enumerate_ind {A B : Type} (P : nat -> B -> Prop)
  (f : B -> nat * A -> B) (l : list A) (b : B) :
  P 0%nat b ->
  (forall k a acc, nth_error l k = Some a -> P k acc -> P (S k) (f acc (k, a))) ->
  P (length l) (fold_left f (enumerate l) b).
Proof.
  intros H0 Hstep. unfold enumerate.
  assert (G : forall l2 l1 acc, l = l1 ++ l2 -> P (length l1) acc ->
            P (length l)
              (fold_left f (combine (seq (length l1) (length l2)) l2) acc)).
  { induction l2 as [|a l2 IH]; intros l1 acc El Hacc; simpl.
    - subst l. rewrite app_nil_r. exact Hacc.
    - specialize (IH (l1 ++ [a]) (f acc (length l1, a))).
      rewrite length_app in IH. simpl in IH.
      rewrite Nat.add_1_r in IH. apply IH.
      + rewrite <- app_assoc. exact El.
      + apply Hstep; [|exact Hacc].
        subst l. rewrite nth_error_app2 by lia.
        rewrite Nat.sub_diag. reflexivity. }
  apply (G l [] b); [reflexivity | exact H0].
Qed.

Section Modular.

Variable p : Z.

Local Notation "a == b" := (eqm p a b) (at level 70).

Lemma eqm_mod_l a : a mod p == a.
Proof. apply Zmod_eqm. Qed.

Lemma reduced_mod a : reduced p (a mod p).
Proof. apply Zmod_mod. Qed.

Lemma reduced_0 : reduced p 0.
Proof. apply Zmod_0_l. Qed.

Lemma reduced_eqm a b : reduced p a -> reduced p b -> a == b -> a = b.
Proof. unfold reduced, eqm. congruence. Qed.

Lemma evaluate_loop cs x r pw :
  reduced p r ->
  fst (fold_left
         (fun '(result, power) coeff =>
            ((result + coeff * power) mod p, (power * x) mod p))
         cs (r, pw))
  = (r + pw * peval cs x) mod p.
Proof.
  revert r pw. induction cs as [|c cs IH]; intros r pw Hr; simpl.
  - rewrite Z.mul_0_r, Z.add_0_r. symmetry. exact Hr.
  - rewrite IH by apply reduced_mod.
    change (((r + c * pw) mod p + (pw * x) mod p * peval cs x)
            == (r + pw * (c + x * peval cs x))).
    eqm_ring.
Qed.

Lemma evaluate_peval cs x :
  Polynomial.evaluate (Polynomial.mk cs p) x = peval cs x mod p.
Proof.
  unfold Polynomial.evaluate. simpl.
  rewrite evaluate_loop by apply reduced_0.
  f_equal. ring.
Qed.

(** *** Writing one coefficient *)

Lemma length_list_set l k v : length (list_set l k v) = length l.
Proof.
  revert k. induction l as [|a l IH]; intros [|k]; simpl; auto.
Qed.

Lemma peval_list_set l k v x :
  (k < length l)%nat ->
  peval (list_set l k v) x = peval l x + (v - nth k l 0) * x ^ Z.of_nat k.
Proof.
  revert k. induction l as [|a l IH]; intros [|k] Hk;
    cbn [peval list_set nth length] in *; try (exfalso; lia).
  - change (Z.of_nat 0) with 0. ring.
  - rewrite IH by lia.
    rewrite Nat2Z.inj_succ, Z.pow_succ_r by lia. ring.
Qed.

Lemma Forall_reduced_list_set l k v :
  Forall (reduced p) l -> reduced p v -> Forall (reduced p) (list_set l k v).
Proof.
  intros Hl Hv. revert k.
  induction Hl as [|a l Ha Hl IH]; intros [|k]; simpl; auto.
Qed.

Lemma peval_firstn_succ l j b x :
  nth_error l j = Some b ->
  peval (firstn (S j) l) x = peval (firstn j l) x + b * x ^ Z.of_nat j.
Proof.
  revert j. induction l as [|a l IH]; intros [|j] Hj;
    cbn [peval firstn nth_error] in *; try discriminate.
  - injection Hj as ->. change (Z.of_nat 0) with 0. ring.
  - rewrite (IH j Hj).
    rewrite Nat2Z.inj_succ, Z.pow_succ_r by lia. ring.
Qed.

Lemma peval_repeat_0 n x : peval (repeat 0 n) x = 0.
Proof.
  induction n as [|n IH]; simpl; [reflexivity|]. rewrite IH. ring.
Qed.

Lemma Forall_reduced_repeat_0 n : Forall (reduced p) (repeat 0 n).
Proof.
  induction n; simpl; constructor; auto using reduced_0.
Qed.

(** *** multiply_terms *)

(** The inner loop adds [a * x^i * p2(x)] to the accumulator. *)
Lemma multiply_terms_inner (p2 : list Z) (i : nat) (a : Z) (R : list Z) x :
  (i + length p2 <= length R)%nat ->
  Forall (reduced p) R ->
  let R' :=
    fold_left
      (fun result '(j, b) =>
         list_set result (i + j) ((nth (i + j) result 0 + a * b) mod p))
      (enumerate p2) R in
  length R' = length R /\ Forall (reduced p) R' /\
  peval R' x == peval R x + a * x ^ Z.of_nat i * peval p2 x.
Proof.
  intros Hlen HR. cbv zeta.
  epose proof (fold_left_enumerate_ind
           (fun j acc => length acc = length R /\ Forall (reduced p) acc /\
              peval acc x == peval R x
                             + a * x ^ Z.of_nat i * peval (firstn j p2) x)
           _ p2 _) as G.
  cbv beta in G. rewrite firstn_all in G. apply G; clear G.
  - simpl. repeat split; auto. eqm_ring.
  - intros j b acc Hj (Hl & Hr & He).
    assert (j < length p2)%nat by (apply nth_error_Some; congruence).
    repeat split.
    + rewrite length_list_set. exact Hl.
    + apply Forall_reduced_list_set; [exact Hr | apply reduced_mod].
    + rewrite peval_list_set by lia.
      rewrite (peval_firstn_succ _ _ _ _ Hj), He.
      rewrite Nat2Z.inj_add, Z.pow_add_r by lia.
      eqm_ring.
Qed.

Lemma multiply_terms_spec (p1 p2 : list Z) x :
  p2 <> [] ->
  let R := Polynomial.multiply_terms p1 p2 p in
  length R = (length p1 + length p2 - 1)%nat /\ Forall (reduced p) R /\
  peval R x == peval p1 x * peval p2 x.
Proof.
  intros Hp2. unfold Polynomial.multiply_terms.
  set (n := (length p1 + length p2 - 1)%nat).
  assert (0 < length p2)%nat by (destruct p2; simpl; [congruence|lia]).
  cbv zeta.
  epose proof (fold_left_enumerate_ind
           (fun i acc => length acc = n /\ Forall (reduced p) acc /\
              peval acc x == peval (firstn i p1) x * peval p2 x)
           _ p1 _) as G.
  cbv beta in G. rewrite firstn_all in G. apply G; clear G.
  - simpl. rewrite repeat_length, peval_repeat_0.
    split; [reflexivity | split; [apply Forall_reduced_repeat_0 | reflexivity]].
  - intros i a acc Hi (Hl & Hr & He).
    assert (i < length p1)%nat by (apply nth_error_Some; congruence).
    destruct (multiply_terms_inner p2 i a acc x) as (Hl' & Hr' & He');
      [unfold n in *; lia | exact Hr |].
    repeat split.
    + rewrite Hl'. exact Hl.
    + exact Hr'.
    + rewrite He', He, (peval_firstn_succ _ _ _ _ Hi). eqm_ring.
Qed.

(** *** scalar_multiply and add_polynomials *)

Lemma scalar_multiply_spec poly scalar x :
  let R := Polynomial.scalar_multiply poly scalar p in
  length R = length poly /\ Forall (reduced p) R /\
  peval R x == scalar * peval poly x.
Proof.
  unfold Polynomial.scalar_multiply. repeat split.
  - apply length_map.
  - apply Forall_forall. intros v Hv. apply in_map_iff in Hv.
    destruct Hv as (c & <- & _). apply reduced_mod.
  - induction poly as [|c poly IH]; simpl.
    + eqm_ring.
    + rewrite IH. eqm_ring.
Qed.

Lemma add_polynomials_spec p1 p2 x :
  let R := Polynomial.add_polynomials p1 p2 p in
  length R = Nat.max (length p1) (length p2) /\ Forall (reduced p) R /\
  peval R x == peval p1 x + peval p2 x.
Proof.
  unfold Polynomial.add_polynomials. repeat split.
  - rewrite length_map, length_seq. reflexivity.
  - apply Forall_forall. intros v Hv. apply in_map_iff in Hv.
    destruct Hv as (c & <- & _). apply reduced_mod.
  - revert p2. induction p1 as [|a p1 IH]; intros p2.
    + simpl. induction p2 as [|b p2 IH2]; simpl.
      * eqm_ring.
      * rewrite <- seq_shift, map_map. simpl in IH2.
        rewrite (map_ext _ (fun i => (match i with O | _ => 0 end + nth i p2 0) mod p))
          by (intros [|?]; reflexivity).
        rewrite IH2. eqm_ring.
    + destruct p2 as [|b p2]; simpl.
      * rewrite <- seq_shift, map_map.
        specialize (IH []). simpl in IH.
        rewrite Nat.max_0_r in IH. 
        rewrite (map_ext _ (fun i => (nth i p1 0 + match i with O | _ => 0 end) mod p))
          by (intros [|?]; reflexivity).
        rewrite IH. eqm_ring.
      * rewrite <- seq_shift, map_map. rewrite (IH p2). eqm_ring.
Qed.

(** *** The Lagrange basis built by the inner loop of [interpolate] *)

Lemma peval_linear c x : peval [- c; 1] x = x - c.
Proof. cbn [peval]. ring. Qed.

Lemma basis_shape (points : list (Z * Z)) (i : nat) (x_i : Z) :
  reduced p 1 ->
  let '(numerator, denominator) := Polynomial.basis points p i x_i in
  length numerator = basis_length i (length points) /\
  Forall (reduced p) numerator /\
  reduced p denominator /\
  denominator == peval numerator x_i /\
  (forall m x_m y_m, m <> i -> nth_error points m = Some (x_m, y_m) ->
     peval numerator x_m == 0).
Proof.
  intros H1.
  set (P := fun k (acc : list Z * Z) =>
              let '(numerator, denominator) := acc in
              length numerator = basis_length i k /\
              Forall (reduced p) numerator /\
              reduced p denominator /\
              denominator == peval numerator x_i /\
              (forall m x_m y_m, (m < k)%nat -> m <> i ->
                 nth_error points m = Some (x_m, y_m) ->
                 peval numerator x_m == 0) /\
              True).
  assert (G : P (length points) (Polynomial.basis points p i x_i)); cycle 1.
  { destruct (Polynomial.basis points p i x_i) as [num den].
    destruct G as (Hl & Hr & Hd & He & Hz & _). repeat split; auto.
    intros m x_m y_m Hm Hnth. apply (Hz m x_m y_m); auto.
    apply nth_error_Some. congruence. }
  unfold Polynomial.basis. apply fold_left_enumerate_ind; unfold P.
  - cbn [peval length]. repeat split; auto.
    + unfold eqm. f_equal. ring.
    + intros; lia.
  - intros k [x_k y_k] [num den] Hk (Hl & Hr & Hd & He & Hz & _).
    destruct (Nat.eqb_spec i k) as [->|Hik].
    + repeat split; auto.
      * rewrite Hl. unfold basis_length.
        destruct (Nat.ltb_spec k k), (Nat.ltb_spec k (S k)); lia.
      * intros m x_m y_m Hm Hmk. apply Hz; lia.
    + destruct (multiply_terms_spec num [- x_k; 1] x_i) as (Hl1 & Hr1 & _);
        [discriminate|].
      repeat split; auto.
      * rewrite Hl1, Hl. unfold basis_length. simpl.
        destruct (Nat.ltb_spec i k), (Nat.ltb_spec i (S k)); lia.
      * apply reduced_mod.
      * destruct (multiply_terms_spec num [- x_k; 1] x_i) as (_ & _ & ->);
          [discriminate|].
        rewrite Zmod_eqm, peval_linear, He. reflexivity.
      * intros m x_m y_m Hm Hmi Hnth.
        destruct (multiply_terms_spec num [- x_k; 1] x_m) as (_ & _ & ->);
          [discriminate|].
        rewrite peval_linear.
        destruct (Nat.eq_dec m k) as [->|Hmk].
        -- rewrite Hnth in Hk. injection Hk as <- <-. eqm_ring.
        -- rewrite (Hz m x_m y_m) by (auto; lia). eqm_ring.
Qed.

(** Zero divisors: a product vanishes modulo a prime only if a factor does. *)
Lemma prime_mul_eqm_0 a b :
  Z.prime p -> a * b == 0 -> a == 0 \/ b == 0.
Proof.
  intros Hp H. pose proof (Z.prime_ge_2 _ Hp).
  unfold eqm in *. rewrite Zmod_0_l in *.
  rewrite !Z.mod_divide in * by lia.
  apply Z.divide_prime_mul; assumption.
Qed.

Lemma eqm_sub_0 a b : a - b == 0 <-> a == b.
Proof.
  unfold eqm. rewrite Zmod_0_l. symmetry. apply Z.cong_iff_0.
Qed.

Lemma prime_reduced_1 : Z.prime p -> reduced p 1.
Proof.
  intros Hp. pose proof (Z.prime_ge_2 _ Hp). apply Z.mod_1_l. lia.
Qed.

Lemma prime_1_neq_0 : Z.prime p -> ~ 1 == 0.
Proof.
  intros Hp. pose proof (Z.prime_ge_2 _ Hp). unfold eqm.
  rewrite Z.mod_1_l, Zmod_0_l by lia. discriminate.
Qed.

Lemma basis_denominator_nonzero (points : list (Z * Z)) (i : nat) (x_i : Z) :
  Z.prime p ->
  (forall m x_m y_m, m <> i -> nth_error points m = Some (x_m, y_m) ->
     ~ x_i == x_m) ->
  ~ snd (Polynomial.basis points p i x_i) == 0.
Proof.
  intros Hp Hdist. unfold Polynomial.basis.
  refine (fold_left_enumerate_ind
            (fun (k : nat) (acc : list Z * Z) => ~ snd acc == 0)
            _ points _ _ _).
  - apply prime_1_neq_0, Hp.
  - intros k [x_k y_k] [num den] Hk Hden. simpl in Hden.
    destruct (Nat.eqb_spec i k) as [->|Hik]; simpl; [exact Hden|].
    rewrite Zmod_eqm. intros H0.
    apply prime_mul_eqm_0 in H0; [|exact Hp].
    destruct H0 as [H0|H0]; [exact (Hden H0)|].
    apply (proj1 (eqm_sub_0 _ _)) in H0. apply (Hdist k x_k y_k); auto.
Qed.

Lemma basis_denominator_zero (points : list (Z * Z)) (i : nat) (x_i : Z)
  m x_m y_m :
  m <> i -> nth_error points m = Some (x_m, y_m) -> x_i == x_m ->
  snd (Polynomial.basis points p i x_i) = 0.
Proof.
  intros Hmi Hm Heq.
  assert (G : (m < length points)%nat ->
              snd (Polynomial.basis points p i x_i) = 0).
  { unfold Polynomial.basis.
    refine (fold_left_enumerate_ind
              (fun (k : nat) (acc : list Z * Z) => (m < k)%nat -> snd acc = 0)
              _ points _ _ _).
    - intros; lia.
    - intros k [x_k y_k] [num den] Hk Hden Hlt. simpl in Hden.
      destruct (Nat.eqb_spec i k) as [->|Hik]; simpl.
      + apply Hden. lia.
      + destruct (Nat.eq_dec m k) as [->|Hmk].
        * rewrite Hm in Hk. injection Hk as <- <-.
          apply (proj2 (eqm_sub_0 _ _)) in Heq. unfold eqm in Heq.
          rewrite Zmod_0_l in Heq.
          rewrite <- Zmult_mod_idemp_r, Heq, Z.mul_0_r.
          apply Zmod_0_l.
        * rewrite Hden by lia. apply Zmod_0_l. }
  apply G, nth_error_Some. congruence.
Qed.

(** *** [pow(denominator, -1, prime)] *)

Lemma py_pow_inverse d :
  Z.prime p -> ~ d == 0 ->
  exists inv, py_pow d (-1) p = Return inv /\ inv * d == 1.
Proof.
  intros Hp Hd. pose proof (Z.prime_ge_2 _ Hp).
  assert (Hd' : d mod p <> 0) by (unfold eqm in Hd; now rewrite Zmod_0_l in Hd).
  assert (Hg : Z.gcd d p = 1).
  { rewrite Z.gcd_comm. apply Z.coprime_prime_l; [exact Hp|].
    intros Hdiv. apply Hd'. apply Z.mod_divide; [lia | exact Hdiv]. }
  unfold py_pow. cbn [Z.ltb Z.compare Z.opp].
  rewrite Hg. cbn [Z.eqb Pos.eqb]. eexists. split; [reflexivity|].
  rewrite Z.pow_1_r, Zmod_eqm. unfold eqm.
  rewrite Z.invmod_prime by assumption. symmetry. apply Z.mod_1_l. lia.
Qed.

Lemma py_pow_zero : 2 <= p -> py_pow 0 (-1) p = Raise ValueError.
Proof.
  intros Hp. unfold py_pow. cbn [Z.ltb Z.compare Z.opp].
  rewrite Z.gcd_0_l.
  destruct (Z.eqb_spec (Z.abs p) 1); [lia | reflexivity].
Qed.

(** *** The outer loop of [interpolate] *)

Lemma distinct_points_nth points m k x_m y_m x_k y_k :
  distinct_points p points ->
  nth_error points m = Some (x_m, y_m) ->
  nth_error points k = Some (x_k, y_k) ->
  m <> k -> ~ x_k == x_m.
Proof.
  intros Hd Hm Hk Hmk Heq. apply Hmk.
  apply (proj1 (NoDup_nth_error _) Hd).
  - rewrite length_map. apply nth_error_Some. congruence.
  - rewrite !nth_error_map, Hm, Hk. simpl. f_equal. symmetry. exact Heq.
Qed.

Lemma interpolate_loop_success (points : list (Z * Z)) :
  Z.prime p -> distinct_points p points ->
  exists R,
    fold_left (Polynomial.interpolate_step points p)
              (enumerate points) (Return [0]) = Return R /\
    length R = Nat.max 1 (length points) /\
    Forall (reduced p) R /\
    (forall m x y, nth_error points m = Some (x, y) -> peval R x == y).
Proof.
  intros Hp Hd.
  set (Q := fun (k : nat) (acc : outcome (list Z)) =>
              exists R, acc = Return R /\
                length R = (if (k =? 0)%nat then 1%nat else length points) /\
                Forall (reduced p) R /\
                (forall m x y, nth_error points m = Some (x, y) ->
                   peval R x == if (m <? k)%nat then y else 0)).
  assert (G : Q (length points)
                (fold_left (Polynomial.interpolate_step points p)
                           (enumerate points) (Return [0]))).
  { apply fold_left_enumerate_ind; unfold Q.
    - exists [0]. split; [reflexivity|]. split; [reflexivity|].
      split; [constructor; [apply reduced_0 | constructor]|].
      intros m x y _. cbn [peval Nat.ltb Nat.leb]. eqm_ring.
    - intros k [x_k y_k] acc Hk (R & -> & Hl & Hr & He).
      cbn [Polynomial.interpolate_step bind].
      pose proof (basis_shape points k x_k (prime_reduced_1 Hp)) as HB.
      pose proof (basis_denominator_nonzero points k x_k Hp) as HD.
      destruct (Polynomial.basis points p k x_k) as [num den].
      destruct HB as (Hnl & Hnr & _ & Hden & Hroots).
      destruct (py_pow_inverse den Hp) as (inv & -> & Hinv).
      { apply HD. intros m x_m y_m Hmk Hm.
        eapply distinct_points_nth; eauto. }
      cbn [bind]. eexists. split; [reflexivity|].
      assert (Hkl : (k < length points)%nat)
        by (apply nth_error_Some; congruence).
      set (c := (y_k * inv) mod p).
      destruct (scalar_multiply_spec num c x_k) as (Hsl & Hsr & _).
      repeat split.
      + destruct (add_polynomials_spec R (Polynomial.scalar_multiply num c p) 0)
          as (-> & _ & _).
        rewrite Hsl, Hnl, Hl. unfold basis_length.
        destruct (Nat.ltb_spec k (length points)); [|lia].
        cbn [Nat.eqb]. destruct (Nat.eqb_spec k 0); lia.
      + destruct (add_polynomials_spec R (Polynomial.scalar_multiply num c p) 0)
          as (_ & H & _). exact H.
      + intros m x y Hm.
        destruct (add_polynomials_spec R (Polynomial.scalar_multiply num c p) x)
          as (_ & _ & ->).
        destruct (scalar_multiply_spec num c x) as (_ & _ & ->).
        rewrite (He m x y Hm). unfold c. rewrite Zmod_eqm.
        destruct (Nat.eq_dec m k) as [->|Hmk].
        * rewrite Hm in Hk. injection Hk as <- <-.
          rewrite <- Hden.
          destruct (Nat.ltb_spec k k), (Nat.ltb_spec k (S k)); try lia.
          transitivity (y * (inv * den)); [eqm_ring|].
          rewrite Hinv. eqm_ring.
        * rewrite (Hroots m x y Hmk Hm).
          destruct (Nat.ltb_spec m k), (Nat.ltb_spec m (S k)); try lia;
            eqm_ring. }
  destruct G as (R & HR & Hl & Hr & He). exists R. repeat split; auto.
  - rewrite Hl. destruct (Nat.eqb_spec (length points) 0); lia.
  - intros m x y Hm. rewrite (He m x y Hm).
    assert (m < length points)%nat by (apply nth_error_Some; congruence).
    destruct (Nat.ltb_spec m (length points)); [reflexivity | lia].
Qed.

Lemma py_pow_raises base e m err :
  py_pow base e m = Raise err -> err = ValueError.
Proof.
  unfold py_pow.
  destruct (e <? 0); [destruct (Z.gcd base m =? 1)|]; congruence.
Qed.

Lemma interpolate_loop_duplicate (points : list (Z * Z)) i m x_i y_i x_m y_m :
  2 <= p -> m <> i ->
  nth_error points i = Some (x_i, y_i) ->
  nth_error points m = Some (x_m, y_m) ->
  x_i == x_m ->
  fold_left (Polynomial.interpolate_step points p)
            (enumerate points) (Return [0]) = Raise ValueError.
Proof.
  intros Hp Hmi Hi Hm Heq.
  set (Q := fun (k : nat) (acc : outcome (list Z)) =>
              ((exists R, acc = Return R) /\ (k <= i)%nat)
              \/ acc = Raise ValueError).
  assert (G : Q (length points)
                (fold_left (Polynomial.interpolate_step points p)
                           (enumerate points) (Return [0]))).
  { apply fold_left_enumerate_ind; unfold Q.
    - left. split; [eexists; reflexivity | lia].
    - intros k [x_k y_k] acc Hk [[(R & ->) Hki] | ->]; [|right; reflexivity].
      cbn [Polynomial.interpolate_step bind].
      destruct (Nat.eq_dec k i) as [->|Hne].
      + rewrite Hi in Hk. injection Hk as <- <-.
        pose proof (basis_denominator_zero points i x_i m x_m y_m Hmi Hm Heq)
          as H0.
        destruct (Polynomial.basis points p i x_i) as [num den].
        simpl in H0. subst den. rewrite (py_pow_zero Hp). right. reflexivity.
      + destruct (Polynomial.basis points p k x_k) as [num den].
        destruct (py_pow den (-1) p) as [inv|err] eqn:E; cbn [bind].
        * left. split; [eexists; reflexivity | lia].
        * right. f_equal. exact (py_pow_raises _ _ _ _ E). }
  destruct G as [[_ Hle] | G]; [|exact G].
  assert (i < length points)%nat by (apply nth_error_Some; congruence). lia.
Qed.

(** *** Results of [interpolate] *)

Theorem interpolate_success (points : list (Z * Z)) :
  Z.prime p -> distinct_points p points ->
  exists R,
    Polynomial.interpolate points p = Return (Polynomial.mk R p) /\
    length R = Nat.max 1 (length points) /\
    Forall (reduced p) R /\
    (forall x y, In (x, y) points -> peval R x == y).
Proof.
  intros Hp Hd.
  destruct (interpolate_loop_success points Hp Hd) as (R & HR & Hl & Hr & He).
  exists R. unfold Polynomial.interpolate. rewrite HR. repeat split; auto.
  intros x y Hin. apply In_nth_error in Hin. destruct Hin as (m & Hm).
  exact (He m x y Hm).
Qed.

Theorem interpolate_duplicate (points : list (Z * Z)) i m x_i y_i x_m y_m :
  2 <= p -> m <> i ->
  nth_error points i = Some (x_i, y_i) ->
  nth_error points m = Some (x_m, y_m) ->
  x_i == x_m ->
  Polynomial.interpolate points p = Raise ValueError.
Proof.
  intros Hp Hmi Hi Hm Heq. unfold Polynomial.interpolate.
  rewrite (interpolate_loop_duplicate points i m x_i y_i x_m y_m); auto.
Qed.

(** *** Uniqueness: a polynomial with more roots than coefficients *)

Lemma length_quotient cs a : length (quotient cs a) = (length cs - 1)%nat.
Proof.
  induction cs as [|c cs IH]; [reflexivity|].
  destruct cs as [|c' cs]; [reflexivity|].
  change (quotient (c :: c' :: cs) a)
    with (peval (c' :: cs) a :: quotient (c' :: cs) a).
  cbn [length] in *. rewrite IH. lia.
Qed.

Lemma peval_quotient cs a x :
  peval cs x = peval cs a + (x - a) * peval (quotient cs a) x.
Proof.
  induction cs as [|c cs IH]; [cbn [peval quotient]; ring|].
  destruct cs as [|c' cs]; [cbn [peval quotient]; ring|].
  change (quotient (c :: c' :: cs) a)
    with (peval (c' :: cs) a :: quotient (c' :: cs) a).
  cbn [peval] in *. rewrite IH at 1. ring.
Qed.

Lemma quotient_zero cs a :
  peval cs a == 0 ->
  Forall (fun c => c == 0) (quotient cs a) ->
  Forall (fun c => c == 0) cs.
Proof.
  induction cs as [|c cs IH]; intros Ha Hq; [constructor|].
  destruct cs as [|c' cs].
  - constructor; [|constructor]. rewrite <- Ha. cbn [peval]. eqm_ring.
  - change (quotient (c :: c' :: cs) a)
      with (peval (c' :: cs) a :: quotient (c' :: cs) a) in Hq.
    inversion Hq as [|? ? Hh Ht]; subst.
    constructor; [|apply IH; assumption].
    transitivity (peval (c :: c' :: cs) a - a * peval (c' :: cs) a).
    + cbn [peval]. eqm_ring.
    + rewrite Ha, Hh. eqm_ring.
Qed.

Lemma roots_zero (xs : list Z) :
  Z.prime p -> NoDup (map (fun x => x mod p) xs) ->
  forall cs, (length cs <= length xs)%nat ->
    (forall x, In x xs -> peval cs x == 0) ->
    Forall (fun c => c == 0) cs.
Proof.
  intros Hp. induction xs as [|a xs IH]; intros Hnd cs Hlen Hroots.
  - destruct cs; [constructor | simpl in Hlen; lia].
  - cbn [map] in Hnd. inversion Hnd as [|? ? Hnotin Hnd']; subst.
    apply (quotient_zero cs a); [apply Hroots; left; reflexivity|].
    apply IH; [exact Hnd' | |].
    + rewrite length_quotient. simpl in Hlen. lia.
    + intros x Hx.
      assert (H0 : (x - a) * peval (quotient cs a) x == 0).
      { transitivity (peval cs x - peval cs a).
        - rewrite (peval_quotient cs a x). eqm_ring.
        - rewrite (Hroots x), (Hroots a) by (simpl; auto). eqm_ring. }
      apply prime_mul_eqm_0 in H0; [|exact Hp].
      destruct H0 as [H0|H0]; [|exact H0].
      exfalso. apply Hnotin. apply (proj1 (eqm_sub_0 _ _)) in H0.
      unfold eqm in H0. rewrite <- H0.
      apply (in_map (fun x => x mod p)). exact Hx.
Qed.

Lemma peval_difference R F x :
  length R = length F ->
  peval (difference R F) x = peval R x - peval F x.
Proof.
  revert F. induction R as [|a R IH]; intros [|b F] Hl; simpl in Hl;
    try discriminate; unfold difference in *; cbn [combine map peval fst snd].
  - ring.
  - rewrite IH by lia. ring.
Qed.

Lemma difference_zero R F :
  length R = length F -> Forall (reduced p) R ->
  Forall (fun c => c == 0) (difference R F) ->
  R = map (fun c => c mod p) F.
Proof.
  revert F. induction R as [|a R IH]; intros [|b F] Hl Hr Hz; simpl in Hl;
    try discriminate; [reflexivity|].
  unfold difference in *. cbn [combine map fst snd] in *.
  inversion Hr; inversion Hz; subst. f_equal.
  - match goal with H : reduced p a |- _ => rewrite <- H end.
    apply (proj1 (eqm_sub_0 _ _)). assumption.
  - apply IH; auto.
Qed.

Lemma map_mod_reduced R :
  Forall (reduced p) R -> map (fun c => c mod p) R = R.
Proof.
  induction 1 as [|a R Ha _ IH]; cbn [map]; [reflexivity|].
  rewrite IH. f_equal. exact Ha.
Qed.

Lemma peval_map_mod F x : peval (map (fun c => c mod p) F) x == peval F x.
Proof.
  induction F as [|c F IH]; cbn [map peval]; [reflexivity|].
  rewrite IH. eqm_ring.
Qed.

Lemma evaluate_map_mod F x :
  Polynomial.evaluate (Polynomial.mk (map (fun c => c mod p) F) p) x
  = Polynomial.evaluate (Polynomial.mk F p) x.
Proof. rewrite !evaluate_peval. apply peval_map_mod. Qed.

Lemma evaluate_0 c F :
  Polynomial.evaluate (Polynomial.mk (c :: F) p) 0 = c mod p.
Proof. rewrite evaluate_peval. cbn [peval]. f_equal. ring. Qed.

(** Two reduced coefficient lists of length at most the number of points
    that agree on pairwise distinct points are equal. *)
Lemma coefficients_unique (xs : list Z) R F :
  Z.prime p -> NoDup (map (fun x => x mod p) xs) ->
  length R = length F -> (length R <= length xs)%nat ->
  Forall (reduced p) R ->
  (forall x, In x xs -> peval R x == peval F x) ->
  R = map (fun c => c mod p) F.
Proof.
  intros Hp Hnd Hl Hle Hr Hagree.
  apply difference_zero; auto.
  apply (roots_zero xs Hp Hnd).
  - unfold difference. rewrite length_map, length_combine. lia.
  - intros x Hx. rewrite peval_difference by exact Hl.
    rewrite (Hagree x Hx). eqm_ring.
Qed.

(** Interpolating as many points of a polynomial as it has coefficients
    returns that polynomial, reduced. *)
Theorem interpolate_on_polynomial (F : list Z) (points : list (Z * Z)) :
  Z.prime p -> distinct_points p points ->
  F <> [] -> length points = length F ->
  (forall x y, In (x, y) points ->
     y = Polynomial.evaluate (Polynomial.mk F p) x) ->
  Polynomial.interpolate points p
  = Return (Polynomial.mk (map (fun c => c mod p) F) p).
Proof.
  intros Hp Hd HF Hl Hon.
  destruct (interpolate_success points Hp Hd) as (R & -> & HRl & HRr & HRe).
  assert (0 < length F)%nat by (destruct F; simpl; [congruence | lia]).
  do 2 f_equal.
  apply (coefficients_unique (map fst points)); auto.
  - unfold distinct_points in Hd. rewrite map_map. exact Hd.
  - lia.
  - rewrite length_map. lia.
  - intros x Hx. apply in_map_iff in Hx. destruct Hx as ([x' y] & <- & Hin).
    cbn [fst]. rewrite (HRe x' y Hin), (Hon x' y Hin), evaluate_peval.
    apply Zmod_eqm.
Qed.

End Modular.

(** * The key manager *)

Lemma collect_loop_spec t exclude ms acc :
  Z.of_nat (length acc) < t ->
  collect_loop t exclude ms acc
  = acc ++ firstn (Z.to_nat t - length acc)
             (map pair_of (filter (eligible exclude) ms)).
Proof.
  revert acc. induction ms as [|m ms IH]; intros acc Hacc;
    cbn [collect_loop filter map].
  - rewrite firstn_nil, app_nil_r. reflexivity.
  - fold (eligible exclude m). destruct (eligible exclude m); [|apply IH, Hacc].
    cbn [map]. fold (pair_of m).
    replace (Z.to_nat t - length acc)%nat
      with (S (Z.to_nat t - length (acc ++ [pair_of m])))
      by (rewrite length_app; simpl; lia).
    cbn [firstn]. rewrite Z.geb_leb.
    destruct (Z.leb_spec t (Z.of_nat (length (acc ++ [pair_of m])))) as [Hge|Hlt].
    + replace (Z.to_nat t - length (acc ++ [pair_of m]))%nat with 0%nat by lia.
      reflexivity.
    + rewrite IH by exact Hlt. rewrite <- app_assoc. reflexivity.
Qed.

Lemma collect_threshold_shares_spec self exclude :
  1 <= threshold self ->
  let candidates := map pair_of (filter (eligible exclude) (members self)) in
  collect_threshold_shares self exclude
  = if threshold self <=? Z.of_nat (length candidates)
    then Some (firstn (Z.to_nat (threshold self)) candidates)
    else None.
Proof.
  intros Ht candidates. unfold collect_threshold_shares.
  rewrite collect_loop_spec by (simpl; lia).
  cbn [app length]. rewrite Nat.sub_0_r. fold candidates.
  rewrite Z.geb_leb, length_firstn.
  destruct (Z.leb_spec (threshold self) (Z.of_nat (length candidates))),
    (Z.leb_spec (threshold self)
       (Z.of_nat (Nat.min (Z.to_nat (threshold self)) (length candidates))));
    try reflexivity; lia.
Qed.

(** ** Failed updates *)

Lemma add_member_failure self new_member_id member self' :
  add_member self new_member_id = Return (member, self') ->
  member = None ->
  self' = self /\
  (dict_mem (members self) new_member_id = true \/
   falsy (collect_threshold_shares self []) = true).
Proof.
  unfold add_member. intros H ->.
  destruct (dict_mem (members self) new_member_id).
  { injection H as <-. auto. }
  destruct (falsy (collect_threshold_shares self [])).
  { injection H as <-. auto. }
  destruct (Polynomial.interpolate _ _); cbn [bind] in H; [|discriminate].
  destruct (py_pow _ _ _); cbn [bind] in H; discriminate.
Qed.

Lemma bind_Return_inv {A B : Type} (m : outcome A) (k : A -> outcome B) (b : B) :
  bind m k = Return b -> exists a, m = Return a /\ k a = Return b.
Proof.
  destruct m as [a|e]; cbn [bind]; [eauto | discriminate].
Qed.

Lemma remove_member_failure self member_id rng ok self' :
  remove_member self member_id rng = Return (ok, self') ->
  ok = false ->
  self' = self /\
  (dict_get (members self) member_id = None \/
   (exists leaving, dict_get (members self) member_id = Some leaving /\
                    Member.is_active leaving = false) \/
   falsy (collect_threshold_shares self [member_id]) = true).
Proof.
  unfold remove_member. intros H ->.
  destruct (dict_get (members self) member_id) as [leaving|].
  2:{ injection H as <-. auto. }
  destruct (Member.is_active leaving) eqn:Ea; cbn [negb] in H.
  2:{ injection H as <-. split; [reflexivity|]. right. left. eauto. }
  destruct (falsy (collect_threshold_shares self [member_id])).
  { injection H as <-. auto. }
  do 4 (apply bind_Return_inv in H; destruct H as (? & _ & H)).
  discriminate.
Qed.

(** ** The member dictionary *)

Lemma dict_mem_false d k :
  dict_mem d k = false <-> ~ In k (map Member.id d).
Proof.
  unfold dict_mem. induction d as [|m d IH]; cbn [existsb map In].
  - tauto.
  - rewrite orb_false_iff, IH. destruct (Z.eqb_spec (Member.id m) k); intuition congruence.
Qed.

Lemma dict_set_fresh d m :
  ~ In (Member.id m) (map Member.id d) -> dict_set d m = d ++ [m].
Proof.
  induction d as [|m' d IH]; cbn [dict_set map In app]; intros Hn.
  - reflexivity.
  - destruct (Z.eqb_spec (Member.id m') (Member.id m)); [tauto|].
    rewrite IH by tauto. reflexivity.
Qed.

Lemma dict_get_Some d k m :
  dict_get d k = Some m -> In m d /\ Member.id m = k.
Proof.
  unfold dict_get. intros H. apply find_some in H.
  destruct H as [Hin Hk]. split; [exact Hin | apply Z.eqb_eq, Hk].
Qed.

Lemma dict_get_In d m :
  NoDup (map Member.id d) -> In m d -> dict_get d (Member.id m) = Some m.
Proof.
  unfold dict_get. induction d as [|m' d IH]; cbn [map In find];
    intros Hnd Hin; [tauto|].
  inversion Hnd as [|? ? Hnotin Hnd']; subst.
  destruct Hin as [->|Hin].
  - rewrite Z.eqb_refl. reflexivity.
  - destruct (Z.eqb_spec (Member.id m') (Member.id m)) as [E|_].
    + exfalso. apply Hnotin. rewrite E. apply in_map, Hin.
    + apply IH; assumption.
Qed.

(** ** The sharing invariant *)

Lemma NoDup_map_incl {A B : Type} (f : A -> B) (l ms : list A) :
  NoDup (map f l) -> NoDup ms -> incl ms l -> NoDup (map f ms).
Proof.
  intros Hl Hms Hincl. induction Hms as [|a ms Ha Hms IH]; cbn [map].
  - constructor.
  - constructor.
    + intros Hin. apply in_map_iff in Hin. destruct Hin as (b & Hfb & Hb).
      assert (b = a); [|subst; contradiction].
      assert (Ha' : In a l) by (apply Hincl; left; reflexivity).
      assert (Hb' : In b l) by (apply Hincl; right; exact Hb).
      clear - Hl Ha' Hb' Hfb. induction l as [|c l IHl]; [contradiction|].
      cbn [map] in Hl. inversion Hl as [|? ? Hn Hl']; subst.
      destruct Ha' as [->|Ha'], Hb' as [->|Hb']; auto.
      * exfalso. apply Hn. rewrite <- Hfb. apply in_map, Hb'.
      * exfalso. apply Hn. rewrite Hfb. apply in_map, Ha'.
    + apply IH. intros x Hx. apply Hincl. right. exact Hx.
Qed.

Lemma quorum_distinct_points self F ms :
  consistent self F -> quorum self ms ->
  distinct_points (prime self) (map pair_of ms).
Proof.
  intros HC (Hnd & Hact & _). unfold distinct_points. rewrite map_map.
  cbn [pair_of fst].
  apply (NoDup_map_incl _ (filter Member.is_active (members self))).
  - exact (c_points _ _ HC).
  - exact (NoDup_map_inv _ _ Hnd).
  - intros m Hm. apply filter_In. apply Hact, Hm.
Qed.

(** Every quorum reconstructs the sharing polynomial. *)
Lemma quorum_interpolates self F ms :
  consistent self F -> quorum self ms ->
  Polynomial.interpolate (map pair_of ms) (prime self)
  = Return (Polynomial.mk (map (fun c => c mod prime self) F) (prime self)).
Proof.
  intros HC HQ. pose proof HQ as (Hnd & Hact & Hlen).
  pose proof (c_threshold _ _ HC). pose proof (c_degree _ _ HC).
  apply interpolate_on_polynomial.
  - exact (c_prime _ _ HC).
  - exact (quorum_distinct_points _ _ _ HC HQ).
  - destruct F; [simpl in *; lia | discriminate].
  - rewrite length_map. lia.
  - intros x y Hin. apply in_map_iff in Hin. destruct Hin as (m & E & Hm).
    injection E as <- <-. apply (c_shares _ _ HC); apply Hact, Hm.
Qed.

Lemma constant_term_mod self F :
  consistent self F ->
  list_get (map (fun c => c mod prime self) F) 0
  = Return (Polynomial.evaluate (Polynomial.mk F (prime self)) 0).
Proof.
  intros HC. pose proof (c_threshold _ _ HC). pose proof (c_degree _ _ HC).
  destruct F as [|c F]; [simpl in *; lia|].
  rewrite evaluate_0. reflexivity.
Qed.

(** ** Setup *)

Lemma range_In lo hi i : In i (range lo hi) <-> lo <= i < hi.
Proof.
  unfold range. rewrite in_map_iff. split.
  - intros (k & <- & Hk). apply in_seq in Hk. lia.
  - intros Hi. exists (Z.to_nat (i - lo)). split; [lia|]. apply in_seq. lia.
Qed.

Lemma range_NoDup lo hi : NoDup (range lo hi).
Proof.
  unfold range. generalize (Z.to_nat (hi - lo)) as n. intros n.
  generalize 0%nat as s. induction n as [|n IH]; intros s; cbn [seq map].
  - constructor.
  - constructor; [|apply IH].
    rewrite in_map_iff. intros (k & E & Hk). apply in_seq in Hk. lia.
Qed.

Lemma randrange_Return lo hi r v :
  randrange lo hi r = Return v -> lo < hi /\ v = lo + r mod (hi - lo).
Proof.
  unfold randrange. destruct (Z.ltb_spec lo hi); [|discriminate].
  intros E. injection E as <-. auto.
Qed.

Lemma mapM_length {A B : Type} (f : A -> outcome B) l bs :
  mapM f l = Return bs -> length bs = length l.
Proof.
  revert bs. induction l as [|a l IH]; intros bs H; cbn [mapM] in H.
  - injection H as <-. reflexivity.
  - apply bind_Return_inv in H. destruct H as (b & _ & H).
    apply bind_Return_inv in H. destruct H as (bs' & Hbs & H).
    injection H as <-. cbn [length]. rewrite (IH bs' Hbs). reflexivity.
Qed.

Lemma random_coefficients_length self rng first rest :
  random_coefficients self rng first = Return rest ->
  length rest = Z.to_nat (threshold self - 1).
Proof.
  unfold random_coefficients. intros H. apply mapM_length in H.
  rewrite H, length_seq. reflexivity.
Qed.

Lemma random_coefficients_total self rng first :
  2 < prime self ->
  exists rest, random_coefficients self rng first = Return rest.
Proof.
  intros Hp. unfold random_coefficients.
  induction (seq 0 (Z.to_nat (threshold self - 1))) as [|k l IH]; cbn [mapM].
  - eauto.
  - unfold randrange at 1. destruct (Z.ltb_spec 2 (prime self)); [|lia].
    destruct IH as (rest & ->). cbn [bind]. eauto.
Qed.

Lemma setup_loop (F : list Z) (p : Z) (ids : list Z) (self : t) :
  prime self = p ->
  NoDup ids ->
  (forall i, In i ids -> ~ In i (map Member.id (members self))) ->
  fold_left
    (fun acc i =>
       self <- acc ;;
       let share := Polynomial.evaluate (Polynomial.mk F p) i in
       public_key <- py_pow share 2 (prime self) ;;
       Return (with_members self
                 (dict_set (members self) (Member.mk i share public_key true))
                 (active_member_count self + 1)))
    ids (Return self)
  = Return (with_members self
              (members self ++ map (initial_member F p) ids)
              (active_member_count self + Z.of_nat (length ids))).
Proof.
  revert self. induction ids as [|i ids IH]; intros self Hp Hnd Hfresh.
  - cbn [fold_left map length]. rewrite app_nil_r, Z.add_0_r.
    destruct self; reflexivity.
  - inversion Hnd as [|? ? Hi Hnd']; subst.
    cbn [fold_left bind py_pow Z.ltb Z.compare].
    rewrite dict_set_fresh by (apply Hfresh; left; reflexivity).
    rewrite IH; [| reflexivity | exact Hnd' |].
    + unfold with_members. cbn [members prime threshold active_member_count
                                 master_secret map length].
      rewrite <- app_assoc. cbn [app]. unfold initial_member.
      f_equal. f_equal. lia.
    + intros j Hj. cbn [with_members members]. rewrite map_app, in_app_iff.
      cbn [map In Member.id]. intros [H|[H|[]]].
      * apply (Hfresh j); [right; exact Hj | exact H].
      * subst. contradiction.
Qed.

Lemma init_Return t n p rng self :
  init t n p rng = Return self ->
  exists secret rest,
    t <= n /\ 2 < p /\ 2 <= secret < p /\
    length rest = Z.to_nat (t - 1) /\
    self = mk t p (map (initial_member (secret :: rest) p) (range 1 (n + 1)))
              (Z.of_nat (length (range 1 (n + 1)))) secret.
Proof.
  unfold init. destruct (Z.gtb_spec t n) as [|Htn]; [discriminate|].
  unfold setup_initial_shares. cbn [prime threshold members active_member_count].
  intros H.
  apply bind_Return_inv in H. destruct H as (secret & Hs & H).
  apply bind_Return_inv in H. destruct H as (rest & Hr & H).
  apply randrange_Return in Hs. destruct Hs as (Hp & Hs).
  apply random_coefficients_length in Hr. cbn [threshold] in Hr.
  rewrite (setup_loop (secret :: rest) p) in H;
    [| reflexivity | apply range_NoDup | intros i _ []].
  injection H as <-. exists secret, rest.
  pose proof (Z.mod_pos_bound (rng 0%nat) (p - 2)).
  repeat split; try lia. 
Qed.

Lemma init_total t n p rng :
  t <= n -> 2 < p -> exists self, init t n p rng = Return self.
Proof.
  intros Htn Hp. unfold init. destruct (Z.gtb_spec t n); [lia|].
  unfold setup_initial_shares. cbn [prime threshold members active_member_count].
  unfold randrange at 1. destruct (Z.ltb_spec 2 p); [|lia]. cbn [bind].
  destruct (random_coefficients_total (mk t p [] 0 0) rng 1 Hp) as (rest & ->).
  cbn [bind].
  rewrite (setup_loop _ p); [eauto | reflexivity | apply range_NoDup |].
  intros i _ [].
Qed.

Lemma filter_all {A : Type} (f : A -> bool) (l : list A) :
  (forall a, In a l -> f a = true) -> filter f l = l.
Proof.
  induction l as [|a l IH]; cbn [filter]; intros H; [reflexivity|].
  rewrite (H a) by (left; reflexivity). f_equal.
  apply IH. intros b Hb. apply H. right. exact Hb.
Qed.

(** The state built by the constructor satisfies the sharing invariant for
    the polynomial it drew, and [master_secret] is its constant term. *)
Lemma init_consistent t n p rng self :
  init t n p rng = Return self ->
  Z.prime p -> 1 <= t -> n < p ->
  exists F,
    consistent self F /\
    master_secret self = Polynomial.evaluate (Polynomial.mk F p) 0 /\
    threshold self = t /\ prime self = p /\
    members self = map (initial_member F p) (range 1 (n + 1)).
Proof.
  intros Hinit Hp Ht Hn.
  destruct (init_Return _ _ _ _ _ Hinit)
    as (secret & rest & Htn & Hp2 & Hs & Hr & ->).
  exists (secret :: rest).
  assert (Hids : map Member.id
                   (map (initial_member (secret :: rest) p) (range 1 (n + 1)))
                 = range 1 (n + 1)).
  { rewrite map_map. cbn [initial_member Member.id]. apply map_id. }
  split; [constructor; cbn [prime threshold members master_secret]
        | cbn [prime threshold members master_secret];
          split; [|split; [|split]]; try reflexivity].
  - exact Hp.
  - exact Ht.
  - cbn [length]. lia.
  - rewrite Hids. apply range_NoDup.
  - rewrite filter_all.
    2:{ intros m Hm. apply in_map_iff in Hm. destruct Hm as (i & <- & _).
        reflexivity. }
    rewrite map_map. cbn [initial_member Member.id].
    rewrite (map_ext_in _ (fun i => i)).
    + rewrite map_id. apply range_NoDup.
    + intros i Hi. apply range_In in Hi. apply Z.mod_small. lia.
  - intros m Hm _. apply in_map_iff in Hm. destruct Hm as (i & <- & _).
    reflexivity.
  - rewrite evaluate_0. symmetry. apply Z.mod_small. lia.
Qed.

(** ** Primality of concrete moduli *)

Lemma prime_check_sound p : prime_check p = true -> Z.prime p.
Proof.
  unfold prime_check. rewrite andb_true_iff, forallb_forall.
  intros [Hp Hall]. apply Z.ltb_lt in Hp. split; [exact Hp|].
  intros n Hn Hdiv. specialize (Hall n (proj2 (range_In 2 p n) ltac:(lia))).
  apply negb_true_iff, Z.eqb_neq in Hall. apply Hall.
  apply Z.mod_divide; [lia | exact Hdiv].
Qed.

Lemma prime_23 : Z.prime 23.
Proof. apply prime_check_sound. reflexivity. Qed.

Lemma prime_7 : Z.prime 7.
Proof. apply prime_check_sound. reflexivity. Qed.

(** ** Reconstruction after setup *)

(** C2. For a prime [p] and [1 <= t <= n < p], the constructor fills the
    dictionary with the points [F(1) .. F(n)] of a polynomial [F] of [t]
    coefficients whose constant term is [master_secret], and interpolating
    the pairs of any [t] different members returns a polynomial whose
    constant term is [master_secret]; so all such subsets agree.  (By
    [init_total] the constructor does return when [2 < p].) *)
Theorem setup_quorum_recovers_secret (p t n : Z) (rng : nat -> Z) (self : ConsortiumKeyManager.t) :
  Z.prime p -> 1 <= t <= n -> n < p ->
  init t n p rng = Return self ->
  (exists F,
     Z.of_nat (length F) = t /\
     Polynomial.evaluate (Polynomial.mk F p) 0 = master_secret self /\
     members self = map (initial_member F p) (range 1 (n + 1))) /\
  (forall ms, quorum self ms ->
     exists poly,
       Polynomial.interpolate (map pair_of ms) p = Return poly /\
       list_get (Polynomial.coefficients poly) 0
       = Return (master_secret self)).
Proof.
  intros Hp [Ht Htn] Hn Hinit.
  destruct (init_consistent _ _ _ _ _ Hinit Hp Ht Hn)
    as (F & HC & Hsecret & Hthr & Hprime & Hmembers).
  split.
  - exists F. rewrite <- Hthr. split; [exact (c_degree _ _ HC)|]. auto.
  - intros ms HQ. eexists. rewrite <- Hprime at 1.
    split; [apply (quorum_interpolates _ _ _ HC HQ)|].
    cbn [Polynomial.coefficients].
    rewrite (constant_term_mod _ _ HC), Hprime, Hsecret. reflexivity.
Qed.

(** ** Collecting a quorum *)

Lemma NoDup_firstn {A : Type} (n : nat) (l : list A) :
  NoDup l -> NoDup (firstn n l).
Proof.
  intros H. rewrite <- (firstn_skipn n l) in H.
  exact (NoDup_app_remove_r _ _ H).
Qed.

Lemma In_firstn {A : Type} (n : nat) (l : list A) a :
  In a (firstn n l) -> In a l.
Proof.
  intros H. rewrite <- (firstn_skipn n l). apply in_or_app. left. exact H.
Qed.

Lemma eligible_active exclude m :
  eligible exclude m = true -> Member.is_active m = true.
Proof. unfold eligible. rewrite andb_true_iff. tauto. Qed.

Lemma eligible_nil m : eligible [] m = Member.is_active m.
Proof. unfold eligible. cbn [existsb negb]. apply andb_true_r. Qed.

(** When enough members are eligible, the collected shares are those of
    the first [threshold] eligible members, and these form a quorum. *)
Lemma collect_quorum self F exclude :
  consistent self F ->
  threshold self
  <= Z.of_nat (length (filter (eligible exclude) (members self))) ->
  let ms := firstn (Z.to_nat (threshold self))
                   (filter (eligible exclude) (members self)) in
  collect_threshold_shares self exclude = Some (map pair_of ms) /\
  falsy (Some (map pair_of ms)) = false /\
  quorum self ms.
Proof.
  intros HC Hcount ms. pose proof (c_threshold _ _ HC) as Ht.
  assert (Hlen : length ms = Z.to_nat (threshold self)).
  { unfold ms. rewrite length_firstn. lia. }
  split; [|split].
  - rewrite collect_threshold_shares_spec by exact Ht.
    rewrite length_map.
    destruct (Z.leb_spec (threshold self)
                (Z.of_nat (length (filter (eligible exclude) (members self)))));
      [|lia].
    unfold ms. rewrite firstn_map. reflexivity.
  - destruct ms as [|m ms']; [simpl in Hlen; lia | reflexivity].
  - split; [|split].
    + apply (NoDup_map_incl _ (members self)).
      * exact (c_keys _ _ HC).
      * apply NoDup_firstn, NoDup_filter.
        exact (NoDup_map_inv _ _ (c_keys _ _ HC)).
      * intros m Hm. apply In_firstn, filter_In in Hm. tauto.
    + intros m Hm. apply In_firstn, filter_In in Hm.
      split; [tauto | apply (eligible_active exclude); tauto].
    + lia.
Qed.

(** ** Joining *)

Lemma dict_get_app_fresh d m :
  ~ In (Member.id m) (map Member.id d) ->
  dict_get (d ++ [m]) (Member.id m) = Some m.
Proof.
  unfold dict_get. induction d as [|m' d IH]; cbn [map In app find]; intros Hn.
  - rewrite Z.eqb_refl. reflexivity.
  - destruct (Z.eqb_spec (Member.id m') (Member.id m)); [tauto|].
    apply IH. tauto.
Qed.

Lemma add_member_success self F new_member_id :
  consistent self F ->
  dict_mem (members self) new_member_id = false ->
  threshold self
  <= Z.of_nat (length (filter Member.is_active (members self))) ->
  add_member self new_member_id
  = Return (Some (joined_member F (prime self) new_member_id),
            with_members self
              (members self ++ [joined_member F (prime self) new_member_id])
              (active_member_count self + 1)).
Proof.
  intros HC Hfresh Hcount. unfold add_member. rewrite Hfresh.
  rewrite <- (filter_ext _ _ eligible_nil) in Hcount.
  destruct (collect_quorum self F [] HC Hcount) as (-> & -> & HQ).
  rewrite (quorum_interpolates _ _ _ HC HQ). cbn [bind].
  rewrite evaluate_map_mod.
  cbn [py_pow Z.ltb Z.compare bind].
  rewrite dict_set_fresh
    by (cbn [Member.id]; apply dict_mem_false; exact Hfresh).
  reflexivity.
Qed.

Lemma NoDup_snoc {A : Type} (l : list A) (a : A) :
  NoDup l -> ~ In a l -> NoDup (l ++ [a]).
Proof.
  intros Hl Ha. apply (Permutation_NoDup (Permutation_cons_append l a)).
  constructor; assumption.
Qed.

(** Joining keeps the sharing invariant when the new id is a new point of
    the field. *)
Lemma add_member_consistent self F new_member_id member self' :
  consistent self F ->
  add_member self new_member_id = Return (Some member, self') ->
  ~ In (new_member_id mod prime self)
       (map (fun m => Member.id m mod prime self)
            (filter Member.is_active (members self))) ->
  consistent self' F.
Proof.
  intros HC Hadd Hnew.
  assert (Hfresh : dict_mem (members self) new_member_id = false).
  { unfold add_member in Hadd.
    destruct (dict_mem (members self) new_member_id);
      [discriminate | reflexivity]. }
  assert (Hcount : threshold self
                   <= Z.of_nat (length (filter Member.is_active (members self)))).
  { destruct (Z.le_gt_cases (threshold self)
                (Z.of_nat (length (filter Member.is_active (members self)))))
      as [H|H]; [exact H|].
    unfold add_member in Hadd. rewrite Hfresh in Hadd.
    rewrite collect_threshold_shares_spec in Hadd
      by exact (c_threshold _ _ HC).
    rewrite length_map, (filter_ext _ _ eligible_nil) in Hadd.
    destruct (Z.leb_spec (threshold self)
                (Z.of_nat (length (filter Member.is_active (members self)))));
      [lia | discriminate]. }
  rewrite (add_member_success _ _ _ HC Hfresh Hcount) in Hadd.
  injection Hadd as <- <-.
  constructor; cbn [with_members prime threshold members].
  - exact (c_prime _ _ HC).
  - exact (c_threshold _ _ HC).
  - exact (c_degree _ _ HC).
  - rewrite map_app. apply NoDup_snoc; [exact (c_keys _ _ HC)|].
    apply dict_mem_false. exact Hfresh.
  - rewrite filter_app, map_app. apply NoDup_snoc; [exact (c_points _ _ HC)|].
    exact Hnew.
  - intros m Hin Hact. apply in_app_iff in Hin.
    destruct Hin as [Hin|[<-|[]]]; [|reflexivity].
    apply (c_shares _ _ HC); assumption.
Qed.


(** C9.  [add_member] does not look at the value of the id: in a
    consistent state with a quorum available and no key [0], [add_member(0)]
    returns an active member, stored under key [0], whose share is the
    secret [F(0)] itself ([evaluate] at [0] returns the constant term), the
    constant term every quorum interpolates to. *)
Theorem add_member_zero_leaks_secret self F :
  consistent self F ->
  dict_mem (members self) 0 = false ->
  threshold self
  <= Z.of_nat (length (filter Member.is_active (members self))) ->
  exists member self',
    add_member self 0 = Return (Some member, self') /\
    dict_get (members self') 0 = Some member /\
    Member.is_active member = true /\
    Member.share member
    = Polynomial.evaluate (Polynomial.mk F (prime self)) 0 /\
    (forall c cs,
       Polynomial.evaluate (Polynomial.mk (c :: cs) (prime self)) 0
       = c mod prime self) /\
    (forall ms, quorum self ms ->
       exists poly,
         Polynomial.interpolate (map pair_of ms) (prime self) = Return poly /\
         list_get (Polynomial.coefficients poly) 0
         = Return (Member.share member)).
Proof.
  intros HC Hfresh Hcount. eexists. eexists.
  split; [apply (add_member_success _ _ _ HC Hfresh Hcount)|].
  split; [|split; [reflexivity|split; [reflexivity|split]]].
  - cbn [with_members members].
    apply (dict_get_app_fresh (members self) (joined_member F (prime self) 0)).
    apply dict_mem_false. exact Hfresh.
  - intros c cs. apply evaluate_0.
  - intros ms HQ. eexists.
    split; [apply (quorum_interpolates _ _ _ HC HQ)|].
    apply (constant_term_mod _ _ HC).
Qed.

(** ** Leaving *)

Lemma mapM_pure {A B : Type} (f : A -> outcome B) (g : A -> B) (l : list A) :
  (forall a, f a = Return (g a)) -> mapM f l = Return (map g l).
Proof.
  intros H. induction l as [|a l IH]; cbn [mapM map]; [reflexivity|].
  rewrite H, IH. reflexivity.
Qed.

Lemma redistribute_loop (new_poly : Polynomial.t) (p member_id : Z) (d : dict) :
  mapM (fun member =>
          if negb (Member.id member =? member_id) && Member.is_active member
          then
            let share := Polynomial.evaluate new_poly (Member.id member) in
            public_key <- py_pow share 2 p ;;
            Return (Member.set_share member share public_key)
          else Return member) d
  = Return (map (fun m =>
                   if negb (Member.id m =? member_id) && Member.is_active m
                   then
                     let share := Polynomial.evaluate new_poly (Member.id m) in
                     Member.set_share m share (share ^ 2 mod p)
                   else m) d).
Proof.
  apply mapM_pure. intros m.
  destruct (negb (Member.id m =? member_id) && Member.is_active m);
    reflexivity.
Qed.

Lemma deactivate_refreshed (F' : list Z) (p member_id : Z) (d : dict) :
  NoDup (map Member.id d) ->
  dict_set_active
    (map (fun m =>
            if negb (Member.id m =? member_id) && Member.is_active m
            then
              let share :=
                Polynomial.evaluate (Polynomial.mk F' p) (Member.id m) in
              Member.set_share m share (share ^ 2 mod p)
            else m) d)
    member_id false
  = map (refreshed F' p member_id) d.
Proof.
  induction d as [|m d IH]; cbn [map dict_set_active]; intros Hnd;
    [reflexivity|].
  inversion Hnd as [|? ? Hnotin Hnd']; subst.
  unfold refreshed at 1.
  destruct (Z.eqb_spec (Member.id m) member_id) as [E|E]; cbn [negb andb].
  - rewrite E, Z.eqb_refl at 1. f_equal.
    clear IH Hnd Hnd'. rewrite E in Hnotin.
    induction d as [|m' d IH]; cbn [map]; [reflexivity|].
    cbn [map In] in Hnotin. unfold refreshed at 1.
    destruct (Z.eqb_spec (Member.id m') member_id); [tauto|].
    cbn [negb andb]. f_equal. apply IH. tauto.
  - destruct (Member.is_active m); cbn [Member.set_share Member.id].
    + destruct (Z.eqb_spec (Member.id m) member_id); [tauto|].
      f_equal. apply IH, Hnd'.
    + destruct (Z.eqb_spec (Member.id m) member_id); [tauto|].
      f_equal. apply IH, Hnd'.
Qed.

Lemma refreshed_id F' p member_id m :
  Member.id (refreshed F' p member_id m) = Member.id m.
Proof.
  unfold refreshed.
  destruct (Member.id m =? member_id), (Member.is_active m); reflexivity.
Qed.

Lemma refreshed_is_active F' p member_id m :
  Member.is_active (refreshed F' p member_id m) = eligible [member_id] m.
Proof.
  unfold refreshed, eligible. cbn [existsb]. rewrite orb_false_r.
  destruct m as [i s k a]. cbn [Member.id Member.is_active].
  destruct (i =? member_id), a; reflexivity.
Qed.

Lemma refreshed_share F' p member_id m :
  eligible [member_id] m = true ->
  Member.share (refreshed F' p member_id m)
  = Polynomial.evaluate (Polynomial.mk F' p) (Member.id m).
Proof.
  unfold refreshed, eligible. cbn [existsb]. rewrite orb_false_r.
  destruct m as [i s k a]. cbn [Member.id Member.is_active].
  destruct (i =? member_id), a;
    cbn [negb andb]; intros H; try discriminate; reflexivity.
Qed.

Lemma filter_map_commute {A B : Type} (f : B -> bool) (g : A -> B) (l : list A) :
  filter f (map g l) = map g (filter (fun a => f (g a)) l).
Proof.
  induction l as [|a l IH]; cbn [map filter]; [reflexivity|].
  destruct (f (g a)); cbn [map]; rewrite IH; reflexivity.
Qed.

(** The state after a reshare is consistent with the new polynomial. *)
Lemma refreshed_consistent self F F' member_id count :
  consistent self F ->
  Z.of_nat (length F') = threshold self ->
  consistent
    (with_members self
       (map (refreshed F' (prime self) member_id) (members self)) count)
    F'.
Proof.
  intros HC Hdeg. constructor;
    cbn [with_members prime threshold members].
  - exact (c_prime _ _ HC).
  - exact (c_threshold _ _ HC).
  - exact Hdeg.
  - rewrite map_map. rewrite (map_ext _ Member.id); [exact (c_keys _ _ HC)|].
    intros m. apply refreshed_id.
  - rewrite filter_map_commute, map_map.
    rewrite (filter_ext _ (eligible [member_id]))
      by (intros m; apply refreshed_is_active).
    rewrite (map_ext _ (fun m => Member.id m mod prime self))
      by (intros m; rewrite refreshed_id; reflexivity).
    apply (NoDup_map_incl _ (filter Member.is_active (members self))).
    + exact (c_points _ _ HC).
    + apply NoDup_filter. exact (NoDup_map_inv _ _ (c_keys _ _ HC)).
    + intros m Hm. apply filter_In in Hm. apply filter_In.
      split; [tauto | apply (eligible_active [member_id]); tauto].
  - intros m' Hin Hact. apply in_map_iff in Hin. destruct Hin as (m & <- & Hm).
    rewrite refreshed_is_active in Hact.
    rewrite refreshed_id. apply refreshed_share. exact Hact.
Qed.

Lemma remove_member_reshare self F member_id rng leaving :
  consistent self F ->
  dict_get (members self) member_id = Some leaving ->
  Member.is_active leaving = true ->
  threshold self
  <= Z.of_nat (length (filter (eligible [member_id]) (members self))) ->
  remove_member self member_id rng
  = (rest <- random_coefficients self rng 0 ;;
     Return (true,
             with_members self
               (map (refreshed
                       (Polynomial.evaluate (Polynomial.mk F (prime self)) 0
                        :: rest)
                       (prime self) member_id)
                    (members self))
               (active_member_count self - 1))).
Proof.
  intros HC Hget Hact Hcount. unfold remove_member.
  rewrite Hget, Hact. cbn [negb].
  destruct (collect_quorum self F [member_id] HC Hcount) as (-> & -> & HQ).
  rewrite (quorum_interpolates _ _ _ HC HQ).
  cbn [bind Polynomial.coefficients].
  rewrite (constant_term_mod _ _ HC). cbn [bind].
  destruct (random_coefficients self rng 0) as [rest|e]; cbn [bind];
    [|reflexivity].
  rewrite redistribute_loop. cbn [bind].
  rewrite deactivate_refreshed by exact (c_keys _ _ HC).
  reflexivity.
Qed.

Lemma remove_member_true self member_id rng self' :
  remove_member self member_id rng = Return (true, self') ->
  exists leaving,
    dict_get (members self) member_id = Some leaving /\
    Member.is_active leaving = true.
Proof.
  unfold remove_member. intros H.
  destruct (dict_get (members self) member_id) as [leaving|];
    [|discriminate].
  exists leaving. split; [reflexivity|].
  destruct (Member.is_active leaving); [reflexivity | discriminate].
Qed.

Lemma evaluate_reduced cs p x :
  Polynomial.evaluate (Polynomial.mk cs p) x mod p
  = Polynomial.evaluate (Polynomial.mk cs p) x.
Proof. rewrite evaluate_peval. apply Zmod_mod. Qed.


(** A removal that meets its preconditions does return [True]. *)
Lemma remove_member_total self F member_id rng leaving :
  consistent self F -> 2 < prime self ->
  dict_get (members self) member_id = Some leaving ->
  Member.is_active leaving = true ->
  threshold self
  <= Z.of_nat (length (filter (eligible [member_id]) (members self))) ->
  exists self', remove_member self member_id rng = Return (true, self').
Proof.
  intros HC Hp Hget Hact Hcount.
  rewrite (remove_member_reshare _ _ _ _ _ HC Hget Hact Hcount).
  destruct (random_coefficients_total self rng 0 Hp) as (rest & ->).
  cbn [bind]. eauto.
Qed.

(** ** Signing *)

Lemma slice_to_firstn {A : Type} (l : list A) k :
  0 <= k -> slice_to l k = firstn (Z.to_nat k) l.
Proof.
  intros Hk. unfold slice_to. destruct (Z.ltb_spec k 0); [lia | reflexivity].
Qed.

Lemma signer_shares_spec self signers :
  signer_shares self signers
  = map (signer_pair self)
        (filter (active_member self) (slice_to signers (threshold self))).
Proof.
  unfold signer_shares.
  generalize (slice_to signers (threshold self)) as l. intros l.
  assert (G : forall acc,
            fold_left
              (fun shares signer_id =>
                 match dict_get (members self) signer_id with
                 | Some m =>
                     if Member.is_active m
                     then shares ++ [(signer_id, Member.share m)]
                     else shares
                 | None => shares
                 end) l acc
            = acc ++ map (signer_pair self) (filter (active_member self) l)).
  { induction l as [|signer_id l IH]; intros acc; cbn [fold_left filter map].
    - rewrite app_nil_r. reflexivity.
    - rewrite IH.
      assert (Ea : active_member self signer_id
                   = match dict_get (members self) signer_id with
                     | Some m => Member.is_active m
                     | None => false
                     end) by reflexivity.
      assert (Es : signer_pair self signer_id
                   = (signer_id,
                      match dict_get (members self) signer_id with
                      | Some m => Member.share m
                      | None => 0
                      end)) by reflexivity.
      destruct (dict_get (members self) signer_id) as [m|];
        rewrite Ea; [|reflexivity].
      destruct (Member.is_active m); [|reflexivity].
      cbn [map]. rewrite Es, <- app_assoc. reflexivity. }
  apply (G []).
Qed.

Lemma filter_length_lt {A : Type} (f : A -> bool) (l : list A) a :
  In a l -> f a = false -> (length (filter f l) < length l)%nat.
Proof.
  induction l as [|b l IH]; cbn [In filter length]; intros Hin Hf; [tauto|].
  pose proof (filter_length_le f l).
  destruct Hin as [->|Hin].
  - rewrite Hf. lia.
  - specialize (IH Hin Hf). destruct (f b); cbn [length]; lia.
Qed.

Section SigningProperties.

Variable sha256_int : string -> Z.

Lemma sign_message_too_few self message signers :
  Z.of_nat (length signers) < threshold self ->
  sign_message sha256_int self message signers = Return None.
Proof.
  intros H. unfold sign_message.
  destruct (Z.ltb_spec (Z.of_nat (length signers)) (threshold self));
    [reflexivity | lia].
Qed.

Lemma sign_message_inactive self message signers signer_id :
  0 <= threshold self ->
  In signer_id (firstn (Z.to_nat (threshold self)) signers) ->
  active_member self signer_id = false ->
  sign_message sha256_int self message signers = Return None.
Proof.
  intros Ht Hin Hinactive. unfold sign_message.
  destruct (Z.ltb_spec (Z.of_nat (length signers)) (threshold self));
    [reflexivity|].
  rewrite signer_shares_spec, length_map, slice_to_firstn by exact Ht.
  pose proof (filter_length_lt _ _ _ Hin Hinactive) as Hlt.
  rewrite length_firstn in Hlt.
  destruct (Z.ltb_spec
              (Z.of_nat (length (filter (active_member self)
                                   (firstn (Z.to_nat (threshold self)) signers))))
              (threshold self)); [reflexivity | lia].
Qed.

(** With its first [threshold] signers all active, [sign_message] signs
    with the constant term interpolated from exactly their pairs. *)
Lemma sign_message_active self message signers poly secret :
  0 <= threshold self <= Z.of_nat (length signers) ->
  (forall signer_id,
     In signer_id (firstn (Z.to_nat (threshold self)) signers) ->
     active_member self signer_id = true) ->
  Polynomial.interpolate
    (map (signer_pair self) (firstn (Z.to_nat (threshold self)) signers))
    (prime self) = Return poly ->
  list_get (Polynomial.coefficients poly) 0 = Return secret ->
  0 <= secret ->
  sign_message sha256_int self message signers
  = Return (Some (sha256_int message ^ secret mod prime self)).
Proof.
  intros Ht Hall Hpoly Hsecret Hpos. unfold sign_message.
  destruct (Z.ltb_spec (Z.of_nat (length signers)) (threshold self)); [lia|].
  rewrite signer_shares_spec, slice_to_firstn by lia.
  rewrite (filter_all _ _ Hall), length_map, length_firstn.
  destruct (Z.ltb_spec
              (Z.of_nat (Nat.min (Z.to_nat (threshold self)) (length signers)))
              (threshold self)); [lia|].
  rewrite Hpoly. cbn [bind]. rewrite Hsecret. cbn [bind].
  unfold py_pow. destruct (Z.ltb_spec secret 0); [lia | reflexivity].
Qed.

End SigningProperties.

Lemma reduced_bounds p c : 0 < p -> reduced p c -> 0 <= c < p.
Proof.
  unfold reduced. intros Hp <-. apply Z.mod_pos_bound. exact Hp.
Qed.

(** C6 (as amended).  [sign_message] returns [None] when fewer than
    [threshold] ids are given.  Otherwise it looks only at the first
    [threshold] listed ids: it returns [None] as soon as one of them is not
    an active member, and when all of them are active (and pairwise
    distinct modulo the prime) it returns the signature computed from the
    constant term interpolated from exactly their shares. *)
Theorem sign_message_first_threshold_signers
  (sha256_int : string -> Z) self message signers :
  Z.prime (prime self) -> 1 <= threshold self ->
  let first := firstn (Z.to_nat (threshold self)) signers in
  (Z.of_nat (length signers) < threshold self ->
   sign_message sha256_int self message signers = Return None) /\
  (forall signer_id,
     In signer_id first -> active_member self signer_id = false ->
     sign_message sha256_int self message signers = Return None) /\
  (threshold self <= Z.of_nat (length signers) ->
   (forall signer_id, In signer_id first ->
      active_member self signer_id = true) ->
   NoDup (map (fun i => i mod prime self) first) ->
   exists poly secret,
     Polynomial.interpolate (map (signer_pair self) first) (prime self)
     = Return poly /\
     list_get (Polynomial.coefficients poly) 0 = Return secret /\
     sign_message sha256_int self message signers
     = Return (Some (sha256_int message ^ secret mod prime self))).
Proof.
  intros Hp Ht first. split; [|split].
  - apply sign_message_too_few.
  - intros signer_id Hin Hinactive.
    apply (sign_message_inactive _ _ _ _ signer_id); [lia | exact Hin | exact Hinactive].
  - intros Hlen Hall Hnd.
    destruct (interpolate_success (prime self) (map (signer_pair self) first) Hp)
      as (R & HR & HRl & HRr & _).
    { unfold distinct_points. rewrite map_map. exact Hnd. }
    destruct R as [|c R]; [cbn [length] in HRl; lia|].
    exists (Polynomial.mk (c :: R) (prime self)), c.
    split; [exact HR|]. split; [reflexivity|].
    pose proof (Z.prime_ge_2 _ Hp).
    apply (sign_message_active sha256_int self message signers
             (Polynomial.mk (c :: R) (prime self)) c);
      [lia | exact Hall | exact HR | reflexivity |].
    inversion HRr as [|? ? Hc _]; subst.
    apply (reduced_bounds (prime self)); [lia | exact Hc].
Qed.

(** The members found under the keys of a list of active signers. *)
Lemma signers_quorum self F signers :
  consistent self F ->
  Z.of_nat (length signers) = threshold self ->
  NoDup signers ->
  (forall signer_id, In signer_id signers ->
     active_member self signer_id = true) ->
  exists ms, quorum self ms /\ map pair_of ms = map (signer_pair self) signers.
Proof.
  intros HC Hlen Hnd Hall.
  assert (G : forall l, (forall i, In i l -> active_member self i = true) ->
            exists ms,
              map Member.id ms = l /\
              (forall m, In m ms ->
                 In m (members self) /\ Member.is_active m = true) /\
              map pair_of ms = map (signer_pair self) l).
  { induction l as [|i l IH]; intros Hl.
    - exists []. split; [reflexivity|]. split; [intros ? []|reflexivity].
    - destruct IH as (ms & Hids & Hin & Hpairs);
        [intros j Hj; apply Hl; right; exact Hj|].
      specialize (Hl i (or_introl eq_refl)).
      unfold active_member in Hl.
      destruct (dict_get (members self) i) as [m|] eqn:E; [|discriminate].
      destruct (dict_get_Some _ _ _ E) as [Hm Hid].
      exists (m :: ms). cbn [map]. split; [|split].
      + rewrite Hid, Hids. reflexivity.
      + intros m' [<-|Hm']; [auto | apply Hin, Hm'].
      + rewrite Hpairs. f_equal. unfold pair_of, signer_pair, share_of.
        rewrite E, Hid. reflexivity. }
  destruct (G signers Hall) as (ms & Hids & Hin & Hpairs).
  exists ms. split; [|exact Hpairs].
  split; [|split].
  - rewrite Hids. exact Hnd.
  - exact Hin.
  - rewrite <- Hlen, <- Hids, length_map. reflexivity.
Qed.

(** C4.  Sign-then-verify round trip.  For the state built by the
    constructor (prime [p], [1 <= t <= n < p]), every message and every list
    of [t] different ids of active members: [sign_message] returns a
    signature and [verify_signature] accepts it. *)
Theorem sign_then_verify (sha256_int : string -> Z) (p t n : Z)
  (rng : nat -> Z) (self : ConsortiumKeyManager.t) message signers :
  Z.prime p -> 1 <= t <= n -> n < p ->
  init t n p rng = Return self ->
  Z.of_nat (length signers) = t ->
  NoDup signers ->
  (forall signer_id, In signer_id signers ->
     active_member self signer_id = true) ->
  exists signature,
    sign_message sha256_int self message signers = Return (Some signature) /\
    verify_signature sha256_int self message signature = Return true.
Proof.
  intros Hp [Ht Htn] Hn Hinit Hlen Hnd Hall.
  destruct (init_consistent _ _ _ _ _ Hinit Hp Ht Hn)
    as (F & HC & Hsecret & Hthr & Hprime & _).
  rewrite <- Hthr in Hlen.
  destruct (signers_quorum _ _ _ HC Hlen Hnd Hall) as (ms & HQ & Hpairs).
  pose proof (quorum_interpolates _ _ _ HC HQ) as Hpoly.
  rewrite Hpairs in Hpoly.
  assert (Hfirst : firstn (Z.to_nat (threshold self)) signers = signers)
    by (apply firstn_all2; lia).
  pose proof (Z.prime_ge_2 _ Hp).
  assert (Hpos : 0 <= master_secret self).
  { rewrite Hsecret, evaluate_peval. apply Z.mod_pos_bound. lia. }
  exists (sha256_int message ^ master_secret self mod prime self). split.
  - apply (sign_message_active sha256_int self message signers
             (Polynomial.mk (map (fun c => c mod prime self) F) (prime self))).
    + lia.
    + rewrite Hfirst. exact Hall.
    + rewrite Hfirst. exact Hpoly.
    + cbn [Polynomial.coefficients]. rewrite (constant_term_mod _ _ HC).
      rewrite Hprime, Hsecret. reflexivity.
    + exact Hpos.
  - unfold verify_signature, py_pow.
    destruct (Z.ltb_spec (master_secret self) 0); [lia|].
    cbn [bind]. rewrite Z.eqb_refl. reflexivity.
Qed.

(** ** Failure modes of interpolation *)

(** C7 (as amended).  [interpolate] takes no threshold and never counts
    its points: over a prime field it raises [ValueError] whenever two of
    the supplied points have the same x-coordinate modulo the prime, and
    for x-coordinates pairwise distinct modulo the prime it returns, however
    few the points, the interpolating polynomial: a polynomial over the
    same prime that takes the value [y mod p] at the [x] of every supplied
    point and has as many coefficients as there are points.  For the empty
    list it returns the one coefficient [0]. *)
Theorem interpolate_failure_modes (p : Z) (points : list (Z * Z)) :
  Z.prime p ->
  (forall i m x_i y_i x_m y_m,
     m <> i ->
     nth_error points i = Some (x_i, y_i) ->
     nth_error points m = Some (x_m, y_m) ->
     x_i mod p = x_m mod p ->
     Polynomial.interpolate points p = Raise ValueError) /\
  (distinct_points p points ->
   exists poly,
     Polynomial.interpolate points p = Return poly /\
     Polynomial.prime poly = p /\
     (points <> [] ->
      length (Polynomial.coefficients poly) = length points) /\
     (forall x y, In (x, y) points ->
        Polynomial.evaluate poly x = y mod p)) /\
  Polynomial.interpolate [] p = Return (Polynomial.mk [0] p).
Proof.
  intros Hp. pose proof (Z.prime_ge_2 _ Hp). split; [|split].
  - intros i m x_i y_i x_m y_m Hmi Hi Hm Heq.
    exact (interpolate_duplicate p points i m x_i y_i x_m y_m
             ltac:(lia) Hmi Hi Hm Heq).
  - intros Hd. destruct (interpolate_success p points Hp Hd)
      as (R & HR & Hl & _ & He).
    exists (Polynomial.mk R p). split; [exact HR|]. split; [reflexivity|].
    split.
    + intros Hne. cbn [Polynomial.coefficients]. rewrite Hl.
      destruct points; [contradiction | cbn [length]; lia].
    + intros x y Hin. rewrite evaluate_peval. exact (He x y Hin).
  - reflexivity.
Qed.

(** ** Order of the points *)

Lemma duplicate_positions (l : list Z) :
  ~ NoDup l ->
  exists i j v, i <> j /\ nth_error l i = Some v /\ nth_error l j = Some v.
Proof.
  induction l as [|a l IH]; intros Hnd.
  - exfalso. apply Hnd. constructor.
  - destruct (in_dec Z.eq_dec a l) as [Hin|Hnotin].
    + apply In_nth_error in Hin. destruct Hin as (j & Hj).
      exists 0%nat, (S j), a. repeat split; [discriminate | exact Hj].
    + destruct IH as (i & j & v & Hij & Hi & Hj).
      { intros H. apply Hnd. constructor; assumption. }
      exists (S i), (S j), v. repeat split; [congruence | exact Hi | exact Hj].
Qed.

Lemma interpolate_not_distinct (p : Z) (points : list (Z * Z)) :
  2 <= p -> ~ distinct_points p points ->
  Polynomial.interpolate points p = Raise ValueError.
Proof.
  intros Hp Hnd. apply duplicate_positions in Hnd.
  destruct Hnd as (i & j & v & Hij & Hi & Hj).
  rewrite nth_error_map in Hi, Hj.
  destruct (nth_error points i) as [[x_i y_i]|] eqn:Ei; [|discriminate].
  destruct (nth_error points j) as [[x_j y_j]|] eqn:Ej; [|discriminate].
  cbn [option_map fst] in Hi, Hj.
  apply (interpolate_duplicate p points i j x_i y_i x_j y_j);
    auto; unfold eqm; congruence.
Qed.

(** C8 (as amended).  Over a prime field, [interpolate] does not depend on
    the order of its points: a list and any permutation of it give the same
    result, and for x-coordinates that are pairwise distinct modulo the
    prime that result is a polynomial, so both calls return identical
    coefficient lists.  (For x-coordinates that differ as integers but not
    modulo the prime both calls raise [ValueError].) *)
Theorem interpolate_permutation (p : Z) (points points' : list (Z * Z)) :
  Z.prime p -> Permutation points points' ->
  Polynomial.interpolate points p = Polynomial.interpolate points' p /\
  (distinct_points p points ->
   exists coefficients,
     Polynomial.interpolate points p
     = Return (Polynomial.mk coefficients p) /\
     Polynomial.interpolate points' p
     = Return (Polynomial.mk coefficients p)).
Proof.
  intros Hp Hperm. pose proof (Z.prime_ge_2 _ Hp).
  assert (Hd' : distinct_points p points -> distinct_points p points').
  { unfold distinct_points. apply Permutation_NoDup, Permutation_map, Hperm. }
  assert (Hsame : distinct_points p points ->
            exists coefficients,
              Polynomial.interpolate points p
              = Return (Polynomial.mk coefficients p) /\
              Polynomial.interpolate points' p
              = Return (Polynomial.mk coefficients p)).
  { intros Hd.
    destruct (interpolate_success p points Hp Hd) as (R & HR & Hl & Hr & He).
    destruct (interpolate_success p points' Hp (Hd' Hd))
      as (R' & HR' & Hl' & Hr' & He').
    exists R. split; [exact HR|]. rewrite HR'. do 2 f_equal.
    rewrite <- (Permutation_length Hperm) in Hl'.
    destruct points as [|pt points].
    - apply Permutation_nil in Hperm. subst points'.
      vm_compute in HR, HR'. congruence.
    - rewrite <- (map_mod_reduced p R Hr).
      apply (coefficients_unique p (map fst (pt :: points))); auto.
      + unfold distinct_points in Hd. rewrite map_map. exact Hd.
      + congruence.
      + rewrite Hl', length_map. cbn [length]. lia.
      + intros x Hx. apply in_map_iff in Hx.
        destruct Hx as ([x' y] & <- & Hin). cbn [fst].
        rewrite (He x' y Hin).
        rewrite (He' x' y (Permutation_in _ Hperm Hin)). reflexivity. }
  split; [|exact Hsame].
  destruct (NoDup_dec Z.eq_dec (map (fun q => fst q mod p) points)) as [Hd|Hd].
  - destruct (Hsame Hd) as (R & -> & ->). reflexivity.
  - rewrite !interpolate_not_distinct; auto; try lia.
    intros Hd2. apply Hd. unfold distinct_points in Hd2.
    apply (Permutation_NoDup (l := map (fun q => fst q mod p) points'));
      [|exact Hd2].
    apply Permutation_map, Permutation_sym, Hperm.
Qed.

(** ** Atomicity of failed updates *)

(** C10.  When [add_member] returns [None] or [remove_member] returns
    [False], the manager is left exactly as it was (members with their
    shares, public keys and flags, the count, prime, threshold and master
    secret); and each listed cause does make the operation fail that way. *)
Theorem failed_update_leaves_state self id rng :
  (forall self', add_member self id = Return (None, self') -> self' = self) /\
  (forall self', remove_member self id rng = Return (false, self') ->
     self' = self) /\
  (dict_mem (members self) id = true \/
   collect_threshold_shares self [] = None ->
   add_member self id = Return (None, self)) /\
  (dict_get (members self) id = None \/
   (exists leaving, dict_get (members self) id = Some leaving /\
                    Member.is_active leaving = false) \/
   collect_threshold_shares self [id] = None ->
   remove_member self id rng = Return (false, self)).
Proof.
  split; [|split; [|split]].
  - intros self' H.
    exact (proj1 (add_member_failure _ _ _ _ H eq_refl)).
  - intros self' H.
    exact (proj1 (remove_member_failure _ _ _ _ _ H eq_refl)).
  - unfold add_member. intros [->| H]; [reflexivity|].
    destruct (dict_mem (members self) id); [reflexivity|].
    rewrite H. reflexivity.
  - unfold remove_member. intros [-> | [(leaving & -> & ->) | H]];
      try reflexivity.
    destruct (dict_get (members self) id) as [leaving|]; [|reflexivity].
    destruct (Member.is_active leaving); [|reflexivity].
    rewrite H. reflexivity.
Qed.

(** ** A stale share after a reshare *)

(** Interpolating one arbitrary point [(x0, y0)] together with
    [threshold - 1] points of a polynomial [F'] at nonzero field elements
    gives the constant term [F'(0)] exactly when [(x0, y0)] lies on [F']. *)
Lemma stale_point_recovers_iff (p : Z) (F' : list Z) (x0 y0 : Z)
  (current : list Z) :
  Z.prime p ->
  length F' = S (length current) ->
  NoDup (map (fun x => x mod p) (x0 :: current)) ->
  NoDup (map (fun x => x mod p) (0 :: current)) ->
  reduced p y0 ->
  exists G g0,
    Polynomial.interpolate
      ((x0, y0)
       :: map (fun x => (x, Polynomial.evaluate (Polynomial.mk F' p) x)) current)
      p = Return (Polynomial.mk G p) /\
    list_get G 0 = Return g0 /\
    (g0 = Polynomial.evaluate (Polynomial.mk F' p) 0
     <-> y0 = Polynomial.evaluate (Polynomial.mk F' p) x0).
Proof.
  intros Hp Hlen Hnd Hnd0 Hy0.
  set (points := (x0, y0)
       :: map (fun x => (x, Polynomial.evaluate (Polynomial.mk F' p) x)) current).
  assert (Hxs : map (fun q => fst q mod p) points
                = map (fun x => x mod p) (x0 :: current)).
  { unfold points. cbn [map fst]. rewrite map_map. reflexivity. }
  assert (Hd : distinct_points p points)
    by (unfold distinct_points; rewrite Hxs; exact Hnd).
  assert (Hpl : length points = length F')
    by (unfold points; cbn [length]; rewrite length_map; lia).
  destruct (interpolate_success p points Hp Hd) as (G & HG & HGl & HGr & HGe).
  destruct G as [|g0 G]; [cbn [length] in HGl; lia|].
  exists (g0 :: G), g0. split; [exact HG|]. split; [reflexivity|].
  inversion HGr as [|? ? Hg0 _]; subst.
  split.
  - (* the constant terms agree: G and F' agree on 0 and the current points *)
    intros Hconst.
    assert (HGF : g0 :: G = map (fun c => c mod p) F').
    { apply (coefficients_unique p (0 :: current)); auto.
      - rewrite HGl, Hpl. lia.
      - rewrite HGl. cbn [length]. unfold points. cbn [length].
        rewrite length_map. lia.
      - intros x [<-|Hx].
        + transitivity g0; [cbn [peval]; eqm_ring|].
          rewrite Hconst, evaluate_peval. apply Zmod_eqm.
        + rewrite (HGe x (Polynomial.evaluate (Polynomial.mk F' p) x)).
          * rewrite evaluate_peval. apply Zmod_eqm.
          * right. apply in_map_iff. exists x. auto. }
    apply (reduced_eqm p); [exact Hy0 | apply evaluate_reduced |].
    rewrite <- (HGe x0 y0) by (left; reflexivity).
    rewrite HGF, peval_map_mod, evaluate_peval. symmetry. apply Zmod_eqm.
  - (* the stale point lies on F': all points do *)
    intros Hon.
    assert (HI : Polynomial.interpolate points p
                 = Return (Polynomial.mk (map (fun c => c mod p) F') p)).
    { apply interpolate_on_polynomial; auto.
      - destruct F'; [discriminate Hlen | discriminate].
      - intros x y [E|Hin].
        + injection E as <- <-. exact Hon.
        + apply in_map_iff in Hin. destruct Hin as (x' & E & _).
          injection E as <- <-. reflexivity. }
    rewrite HG in HI. injection HI as HI.
    destruct F' as [|c F']; [discriminate Hlen|].
    cbn [map] in HI. injection HI as -> _.
    rewrite evaluate_0. reflexivity.
Qed.

(** *** Counting the draws for which a stale share still works *)

Lemma filter_none {A : Type} (f : A -> bool) (l : list A) :
  (forall a, In a l -> f a = false) -> filter f l = [].
Proof.
  induction l as [|a l IH]; cbn [filter]; intros H; [reflexivity|].
  rewrite (H a) by (left; reflexivity).
  apply IH. intros b Hb. apply H. right. exact Hb.
Qed.

Lemma filter_at_most_one {A : Type} (f : A -> bool) (l : list A) :
  NoDup l ->
  (forall a a', In a l -> In a' l -> f a = true -> f a' = true -> a = a') ->
  (length (filter f l) <= 1)%nat.
Proof.
  induction l as [|a l IH]; intros Hnd Huniq; cbn [filter length]; [lia|].
  inversion Hnd as [|? ? Hnotin Hnd']; subst.
  destruct (f a) eqn:Ea.
  - rewrite filter_none; [cbn [length]; lia|].
    intros b Hb. destruct (f b) eqn:Eb; [|reflexivity].
    exfalso. apply Hnotin.
    rewrite (Huniq a b); auto; [left; reflexivity | right; exact Hb].
  - apply IH; [exact Hnd'|].
    intros b b' Hb Hb'. apply Huniq; right; assumption.
Qed.

Lemma filter_prod_bound {A B : Type} (f : A * B -> bool)
  (la : list A) (lb : list B) :
  NoDup lb ->
  (forall a b b', In a la -> In b lb -> In b' lb ->
     f (a, b) = true -> f (a, b') = true -> b = b') ->
  (length (filter f (list_prod la lb)) <= length la)%nat.
Proof.
  intros Hnd Huniq. induction la as [|a la IH]; cbn [list_prod length];
    [cbn; lia|].
  rewrite filter_app, length_app.
  assert (H1 : (length (filter f (map (fun y => (a, y)) lb)) <= 1)%nat).
  { rewrite filter_map_commute, length_map.
    apply filter_at_most_one; [exact Hnd|].
    intros b b' Hb Hb'. apply (Huniq a); auto. left. reflexivity. }
  assert (H2 : (length (filter f (list_prod la lb)) <= length la)%nat).
  { apply IH. intros a' b b' Ha'. apply Huniq. right. exact Ha'. }
  lia.
Qed.

Lemma length_range lo hi : length (range lo hi) = Z.to_nat (hi - lo).
Proof. unfold range. rewrite length_map, length_seq. reflexivity. Qed.

(** Two quadratics with the same lower coefficients and the same value at
    [2] have the same leading coefficient. *)
Lemma leading_coefficient_determined (p s c1 c2 c2' : Z) :
  Z.prime p -> 5 < p -> 0 <= c2 < p -> 0 <= c2' < p ->
  Polynomial.evaluate (Polynomial.mk [s; c1; c2] p) 2
  = Polynomial.evaluate (Polynomial.mk [s; c1; c2'] p) 2 ->
  c2 = c2'.
Proof.
  intros Hp Hp5 Hc Hc' H. rewrite !evaluate_peval in H. cbn [peval] in H.
  assert (H4 : eqm p (4 * (c2 - c2')) 0).
  { apply eqm_sub_0 in H. rewrite <- H. unfold eqm. f_equal. ring. }
  apply prime_mul_eqm_0 in H4; [|exact Hp].
  destruct H4 as [H4|H4].
  - unfold eqm in H4. rewrite Zmod_0_l, Z.mod_small in H4 by lia. lia.
  - apply (proj1 (eqm_sub_0 _ _ _)) in H4. unfold eqm in H4.
    rewrite !Z.mod_small in H4 by lia. exact H4.
Qed.

(** *** The scenario of the design document: [t = 3], [n = 5], member 2 leaves *)

Lemma stale_share_scenario_spec (p : Z) (rng : nat -> Z) (a b : Z) :
  Z.prime p -> 5 < p -> In a [1; 3; 4; 5] -> In b [1; 3; 4; 5] -> a <> b ->
  exists s c1 y,
    forall r, exists v,
      stale_share_scenario p rng a b r = Return v /\
      (v = true <->
       y = Polynomial.evaluate
             (Polynomial.mk [s; c1 r; 2 + snd r mod (p - 2)] p) 2) /\
      c1 (fst r, 0) = c1 r.
Proof.
  intros Hp Hp5 Ha Hb Hab.
  destruct (init_total 3 5 p rng) as (self & Hinit); [lia | lia|].
  destruct (init_consistent _ _ _ _ _ Hinit Hp) as (F & HC & _ & Hthr & Hprime & Hm);
    [lia | lia|].
  change (range 1 (5 + 1)) with [1; 2; 3; 4; 5] in Hm. cbn [map] in Hm.
  exists (Polynomial.evaluate (Polynomial.mk F p) 0),
         (fun r => 2 + fst r mod (p - 2)),
         (Polynomial.evaluate (Polynomial.mk F p) 2).
  intros r.
  set (F' := [Polynomial.evaluate (Polynomial.mk F p) 0;
              2 + fst r mod (p - 2); 2 + snd r mod (p - 2)]).
  assert (Hget : dict_get (members self) 2 = Some (initial_member F p 2))
    by (rewrite Hm; reflexivity).
  assert (Hcount : threshold self
                   <= Z.of_nat (length (filter (eligible [2]) (members self))))
    by (rewrite Hthr, Hm; cbv; discriminate).
  assert (Hrest : random_coefficients self (fresh_rng r) 0
                  = Return [2 + fst r mod (p - 2); 2 + snd r mod (p - 2)]).
  { unfold random_coefficients. rewrite Hthr, Hprime.
    change (seq 0 (Z.to_nat (3 - 1))) with [0%nat; 1%nat].
    cbn [mapM]. unfold randrange.
    destruct (Z.ltb_spec 2 p); [reflexivity | lia]. }
  pose proof (remove_member_reshare self F 2 (fresh_rng r) _ HC Hget eq_refl Hcount)
    as Hremove.
  rewrite Hrest, Hprime in Hremove. cbn [bind] in Hremove. fold F' in Hremove.
  set (self' := with_members self (map (refreshed F' p 2) (members self))
                  (active_member_count self - 1)) in *.
  assert (HC' : consistent self' F').
  { unfold self'. rewrite <- Hprime.
    apply (refreshed_consistent self F); [exact HC | rewrite Hthr; reflexivity]. }
  assert (Hprime' : prime self' = p) by exact Hprime.
  assert (Hstale : signer_pair self 2
                   = (2, Polynomial.evaluate (Polynomial.mk F p) 2)).
  { unfold signer_pair, share_of. rewrite Hget. reflexivity. }
  assert (Hcur : forall x, In x [1; 3; 4; 5] ->
            signer_pair self' x
            = (x, Polynomial.evaluate (Polynomial.mk F' p) x)).
  { intros x Hx. unfold signer_pair, share_of, self'.
    cbn [with_members members]. rewrite Hm.
    destruct Hx as [<-|[<-|[<-|[<-|[]]]]]; reflexivity. }
  assert (Hcount' : threshold self'
                    <= Z.of_nat (length (filter (eligible []) (members self')))).
  { unfold self'. cbn [with_members members threshold]. rewrite Hthr, Hm.
    cbv. discriminate. }
  destruct (collect_quorum self' F' [] HC' Hcount') as (Hcollect & _ & HQ).
  pose proof (quorum_interpolates _ _ _ HC' HQ) as Hquorum.
  pose proof (constant_term_mod _ _ HC') as Hconst.
  rewrite Hprime' in Hquorum, Hconst.
  destruct (stale_point_recovers_iff p F' 2
              (Polynomial.evaluate (Polynomial.mk F p) 2) [a; b] Hp eq_refl)
    as (G & g0 & HG & Hg0 & Hiff).
  { destruct Ha as [<-|[<-|[<-|[<-|[]]]]], Hb as [<-|[<-|[<-|[<-|[]]]]];
      try congruence; distinct_literals. }
  { destruct Ha as [<-|[<-|[<-|[<-|[]]]]], Hb as [<-|[<-|[<-|[<-|[]]]]];
      try congruence; distinct_literals. }
  { apply evaluate_reduced. }
  exists (g0 =? Polynomial.evaluate (Polynomial.mk F' p) 0).
  split; [|split; [|reflexivity]].
  - unfold stale_share_scenario. rewrite Hinit. cbn [bind].
    rewrite Hremove. cbn [bind snd]. fold self'.
    rewrite Hstale, (Hcur a Ha), (Hcur b Hb).
    cbn [map] in HG. rewrite HG. cbn [bind].
    rewrite Hcollect, Hquorum. cbn [bind Polynomial.coefficients].
    rewrite Hg0, Hconst. reflexivity.
  - rewrite Z.eqb_eq. exact Hiff.
Qed.

(** C3.  With [t = 3], [n = 5], after [remove_member(2)]: interpolating
    member 2's pre-removal pair with the current pairs of two other active
    members gives the current secret only if the old share happens to lie
    on the new polynomial.  The scenario always runs to completion, and
    among the [(p - 2)^2] equally likely pairs of fresh coefficients drawn
    by the reshare at most [p - 2] make the two constant terms equal: the
    probability of that event is at most [1 / (p - 2)]. *)
Theorem stale_share_rarely_recovers (p : Z) (rng : nat -> Z) (a b : Z) :
  Z.prime p -> 5 < p -> In a [1; 3; 4; 5] -> In b [1; 3; 4; 5] -> a <> b ->
  let draws := list_prod (range 0 (p - 2)) (range 0 (p - 2)) in
  (forall r, exists v, stale_share_scenario p rng a b r = Return v) /\
  Z.of_nat (length (filter (stale_share_recovers p rng a b) draws)) * (p - 2)
  <= Z.of_nat (length draws).
Proof.
  intros Hp Hp5 Ha Hb Hab draws.
  destruct (stale_share_scenario_spec p rng a b Hp Hp5 Ha Hb Hab)
    as (s & c1 & y & Hspec).
  split.
  - intros r. destruct (Hspec r) as (v & Hv & _). eauto.
  - assert (Hbound : (length (filter (stale_share_recovers p rng a b) draws)
                      <= length (range 0 (p - 2)))%nat).
    { apply filter_prod_bound; [apply range_NoDup|].
      intros r1 r2 r2' _ Hr2 Hr2' Hrec Hrec'.
      apply range_In in Hr2, Hr2'.
      unfold stale_share_recovers in Hrec, Hrec'.
      destruct (Hspec (r1, r2)) as (v & Hv & Hiff & Hc).
      destruct (Hspec (r1, r2')) as (v' & Hv' & Hiff' & Hc').
      rewrite Hv in Hrec. rewrite Hv' in Hrec'. subst v v'.
      cbn [fst snd] in *.
      pose proof (proj1 Hiff eq_refl) as E.
      pose proof (proj1 Hiff' eq_refl) as E'.
      rewrite <- Hc in E. rewrite <- Hc' in E'. rewrite E in E'.
      rewrite !Z.mod_small in E' by lia.
      apply leading_coefficient_determined in E'; auto; lia. }
    unfold draws in *. rewrite length_prod.
    rewrite length_range in *. rewrite Z.sub_0_r in *.
    set (k := length (filter (stale_share_recovers p rng a b)
                        (list_prod (range 0 (p - 2)) (range 0 (p - 2))))) in *.
    rewrite Nat2Z.inj_mul, Z2Nat.id by lia.
    apply Z.mul_le_mono_nonneg_r; lia.
Qed.

(** * Concrete runs *)

Lemma demo_manager_init : init 3 5 23 demo_rng = Return demo_manager.
Proof. vm_compute. reflexivity. Qed.

Lemma small_manager_init : init 2 3 7 demo_rng = Return small_manager.
Proof. vm_compute. reflexivity. Qed.

(** The polynomial the demo consortium drew: [6 + 9 x + 12 x^2]. *)
Lemma demo_manager_consistent : consistent demo_manager [6; 9; 12].
Proof.
  constructor.
  - exact prime_23.
  - cbv. discriminate.
  - reflexivity.
  - cbv. repeat (constructor; [cbn [In]; intuition discriminate|]).
    constructor.
  - cbv. repeat (constructor; [cbn [In]; intuition discriminate|]).
    constructor.
  - intros m Hm _. cbv in Hm.
    destruct Hm as [<-|[<-|[<-|[<-|[<-|[]]]]]]; reflexivity.
Qed.

Lemma demo_without_2_removed :
  remove_member demo_manager 2 demo_rng = Return (true, demo_without_2).
Proof. vm_compute. reflexivity. Qed.

Lemma demo_without_1_removed :
  remove_member demo_manager 1 demo_rng = Return (true, demo_without_1).
Proof. vm_compute. reflexivity. Qed.


(** Members 3, 4 and 5 of the demo consortium form a quorum. *)
Lemma demo_quorum_345 : quorum demo_manager (skipn 2 (members demo_manager)).
Proof.
  split; [|split].
  - cbv. repeat (constructor; [cbn [In]; intuition discriminate|]).
    constructor.
  - intros m Hm. cbv in Hm.
    destruct Hm as [<-|[<-|[<-|[]]]]; (split; [cbv; tauto | reflexivity]).
  - reflexivity.
Qed.

Lemma setup_quorum_recovers_secret_witness :
  exists poly,
    Polynomial.interpolate (map pair_of (skipn 2 (members demo_manager))) 23
    = Return poly /\
    list_get (Polynomial.coefficients poly) 0
    = Return (master_secret demo_manager).
Proof.
  exact (proj2 (setup_quorum_recovers_secret 23 3 5 demo_rng demo_manager
                  prime_23 ltac:(lia) ltac:(lia) demo_manager_init)
           (skipn 2 (members demo_manager)) demo_quorum_345).
Defined.

Lemma demo_signers_active signer_id :
  In signer_id [1; 2; 3] -> active_member demo_manager signer_id = true.
Proof. intros [<-|[<-|[<-|[]]]]; reflexivity. Qed.

Lemma demo_signers_distinct : NoDup [1; 2; 3].
Proof.
  repeat (constructor; [cbn [In]; intuition discriminate|]). constructor.
Qed.

Lemma sign_then_verify_witness :
  exists signature,
    sign_message demo_hash demo_manager demo_message [1; 2; 3]
    = Return (Some signature) /\
    verify_signature demo_hash demo_manager demo_message signature
    = Return true.
Proof.
  exact (sign_then_verify demo_hash 23 3 5 demo_rng demo_manager demo_message
           [1; 2; 3] prime_23 ltac:(lia) ltac:(lia) demo_manager_init
           eq_refl demo_signers_distinct demo_signers_active).
Defined.


Lemma add_member_zero_leaks_secret_witness :
  exists member self',
    add_member demo_manager 0 = Return (Some member, self') /\
    Member.share member
    = Polynomial.evaluate (Polynomial.mk [6; 9; 12] 23) 0.
Proof.
  destruct (add_member_zero_leaks_secret demo_manager [6; 9; 12]
              demo_manager_consistent eq_refl ltac:(vm_compute; discriminate))
    as (member & self' & Hadd & _ & _ & Hshare & _).
  exists member, self'. auto.
Defined.

Lemma sign_message_first_threshold_signers_witness :
  sign_message demo_hash demo_without_1 demo_message [1; 2; 3; 4]
  = Return None.
Proof.
  exact (proj1 (proj2 (sign_message_first_threshold_signers demo_hash
                         demo_without_1 demo_message [1; 2; 3; 4]
                         prime_23 ltac:(vm_compute; discriminate)))
           1 (or_introl eq_refl) eq_refl).
Defined.

Lemma interpolate_failure_modes_witness :
  Polynomial.interpolate [(1, 10); (1, 19)] 23 = Raise ValueError.
Proof.
  exact (proj1 (interpolate_failure_modes 23 [(1, 10); (1, 19)] prime_23)
           0%nat 1%nat 1 10 1 19 ltac:(discriminate) eq_refl eq_refl eq_refl).
Defined.

Lemma interpolate_permutation_witness :
  Polynomial.interpolate [(1, 10); (2, 19); (4, 3)] 23
  = Polynomial.interpolate [(2, 19); (4, 3); (1, 10)] 23.
Proof.
  exact (proj1 (interpolate_permutation 23 [(1, 10); (2, 19); (4, 3)]
                  [(2, 19); (4, 3); (1, 10)] prime_23
                  (Permutation_cons_append [(2, 19); (4, 3)] (1, 10)))).
Defined.

Lemma stale_share_rarely_recovers_witness :
  Z.of_nat (length (filter (stale_share_recovers 23 demo_rng 1 3)
                      (list_prod (range 0 (23 - 2)) (range 0 (23 - 2)))))
  * (23 - 2)
  <= Z.of_nat (length (list_prod (range 0 (23 - 2)) (range 0 (23 - 2)))).
Proof.
  exact (proj2 (stale_share_rarely_recovers 23 demo_rng 1 3 prime_23
                  ltac:(lia) (or_introl eq_refl) (or_intror (or_introl eq_refl))
                  ltac:(discriminate))).
Defined.

(** * Where the design document and the program differ *)



(** C6: after member 1 left, the list [1; 2; 3; 4] holds three active
    member ids, yet signing fails: only its first three entries are read. *)
Lemma sign_message_later_signers_counterexample :
  remove_member demo_manager 1 demo_rng = Return (true, demo_without_1) /\
  threshold demo_without_1 = 3 /\
  filter (active_member demo_without_1) [1; 2; 3; 4] = [2; 3; 4] /\
  sign_message demo_hash demo_without_1 demo_message [1; 2; 3; 4]
  = Return None.
Proof.
  split; [exact demo_without_1_removed|].
  split; [reflexivity|]. split; vm_compute; reflexivity.
Qed.

(** C7: given two points where the manager's threshold is three,
    [interpolate] returns an ordinary polynomial (whose constant term is
    not the secret). *)
Lemma interpolate_fewer_points_counterexample :
  threshold demo_manager = 3 /\
  master_secret demo_manager = 6 /\
  Polynomial.interpolate (map pair_of (firstn 2 (members demo_manager)))
                         (prime demo_manager)
  = Return (Polynomial.mk [5; 22] 23).
Proof.
  split; [reflexivity|]. split; [reflexivity|]. vm_compute. reflexivity.
Qed.

(** C8: the x-coordinates 1 and 8 are different, but not modulo 7: in
    either order [interpolate] raises [ValueError] and returns no
    coefficient list. *)
Lemma interpolate_congruent_points_counterexample :
  NoDup (map fst [(1, 3); (8, 3)]) /\
  Permutation [(1, 3); (8, 3)] [(8, 3); (1, 3)] /\
  Polynomial.interpolate [(1, 3); (8, 3)] 7 = Raise ValueError /\
  Polynomial.interpolate [(8, 3); (1, 3)] 7 = Raise ValueError.
Proof.
  split; [|split; [apply perm_swap | split; vm_compute; reflexivity]].
  cbn [map fst].
  repeat (constructor; [cbn [In]; intuition discriminate|]). constructor.
Qed.

(** * Further properties of the program *)

(** ** The list operations of [Polynomial] *)

Lemma peval_monomials_from (cs : list Z) (x : Z) (start : nat) :
  fold_right Z.add 0
    (map (fun ic => snd ic * x ^ Z.of_nat (fst ic))
         (combine (seq start (length cs)) cs))
  = x ^ Z.of_nat start * peval cs x.
Proof.
  revert start. induction cs as [|c cs IH]; intros start;
    cbn [length seq combine map fold_right peval fst snd].
  - ring.
  - rewrite IH, Nat2Z.inj_succ, Z.pow_succ_r by lia. ring.
Qed.

(** X1.  [evaluate], which keeps a running power of [x], returns the sum of
    the monomials [c_i * x^i] reduced modulo the prime; for a positive
    modulus the value lies in [0 .. p-1]. *)
Theorem evaluate_sum_of_monomials (cs : list Z) (p x : Z) :
  0 < p ->
  Polynomial.evaluate (Polynomial.mk cs p) x
  = fold_right Z.add 0
      (map (fun ic => snd ic * x ^ Z.of_nat (fst ic)) (enumerate cs)) mod p /\
  0 <= Polynomial.evaluate (Polynomial.mk cs p) x < p.
Proof.
  intros Hp. rewrite evaluate_peval. split.
  - unfold enumerate. rewrite peval_monomials_from.
    change (Z.of_nat 0) with 0. rewrite Z.pow_0_r, Z.mul_1_l. reflexivity.
  - apply Z.mod_pos_bound. exact Hp.
Qed.

Lemma evaluate_sum_of_monomials_witness :
  Polynomial.evaluate (Polynomial.mk [5; 3; 2] 23) 4
  = (5 * 4 ^ 0 + (3 * 4 ^ 1 + (2 * 4 ^ 2 + 0))) mod 23.
Proof.
  exact (proj1 (evaluate_sum_of_monomials [5; 3; 2] 23 4 ltac:(lia))).
Defined.

Lemma multiply_terms_nil_r (p1 : list Z) (p : Z) :
  Polynomial.multiply_terms p1 [] p = repeat 0 (length p1 - 1).
Proof.
  unfold Polynomial.multiply_terms, enumerate.
  cbn [length seq combine fold_left]. rewrite Nat.add_0_r.
  generalize (repeat 0 (length p1 - 1)) as R.
  generalize (combine (seq 0 (length p1)) p1) as l.
  intros l. induction l as [|[i a] l IH]; intros R; cbn [fold_left];
    [reflexivity|].
  apply IH.
Qed.

Lemma multiply_terms_full_spec (p1 p2 : list Z) (p x : Z) :
  let R := Polynomial.multiply_terms p1 p2 p in
  length R = (length p1 + length p2 - 1)%nat /\ Forall (reduced p) R /\
  eqm p (peval R x) (peval p1 x * peval p2 x).
Proof.
  destruct p2 as [|b p2].
  - cbv zeta. rewrite multiply_terms_nil_r. cbn [length peval].
    rewrite repeat_length, peval_repeat_0, Nat.add_0_r.
    split; [reflexivity|]. split; [apply Forall_reduced_repeat_0|].
    unfold eqm. f_equal. ring.
  - apply multiply_terms_spec. discriminate.
Qed.

(** X2.  For a non-zero modulus, [multiply_terms] is the product in
    [Z_p[x]]: the result has [len(p1) + len(p2) - 1] coefficients, each
    already reduced modulo the prime, and evaluating it gives the product
    of the evaluations. *)
Theorem multiply_terms_is_product (p1 p2 : list Z) (p x : Z) :
  p <> 0 ->
  length (Polynomial.multiply_terms p1 p2 p)
  = (length p1 + length p2 - 1)%nat /\
  Forall (reduced p) (Polynomial.multiply_terms p1 p2 p) /\
  Polynomial.evaluate (Polynomial.mk (Polynomial.multiply_terms p1 p2 p) p) x
  = (Polynomial.evaluate (Polynomial.mk p1 p) x
     * Polynomial.evaluate (Polynomial.mk p2 p) x) mod p.
Proof.
  intros _.
  destruct (multiply_terms_full_spec p1 p2 p x) as (Hl & Hr & He).
  split; [exact Hl|]. split; [exact Hr|].
  rewrite !evaluate_peval. unfold eqm in He. rewrite He.
  apply Zmult_mod.
Qed.

Lemma multiply_terms_is_product_witness :
  length (Polynomial.multiply_terms [1; 2] [3; 4] 7)
  = (length [1; 2] + length [3; 4] - 1)%nat /\
  Forall (reduced 7) (Polynomial.multiply_terms [1; 2] [3; 4] 7) /\
  Polynomial.evaluate
    (Polynomial.mk (Polynomial.multiply_terms [1; 2] [3; 4] 7) 7) 2
  = (Polynomial.evaluate (Polynomial.mk [1; 2] 7) 2
     * Polynomial.evaluate (Polynomial.mk [3; 4] 7) 2) mod 7.
Proof.
  apply (multiply_terms_is_product [1; 2] [3; 4] 7 2). discriminate.
Defined.

(** X3.  For a non-zero modulus, [add_polynomials] is the sum in
    [Z_p[x]]: the shorter list is padded with zeros, the operation is
    commutative, and evaluating the result gives the sum of the
    evaluations. *)
Theorem add_polynomials_is_sum (p1 p2 : list Z) (p x : Z) :
  p <> 0 ->
  length (Polynomial.add_polynomials p1 p2 p)
  = Nat.max (length p1) (length p2) /\
  Polynomial.add_polynomials p1 p2 p = Polynomial.add_polynomials p2 p1 p /\
  Polynomial.evaluate (Polynomial.mk (Polynomial.add_polynomials p1 p2 p) p) x
  = (Polynomial.evaluate (Polynomial.mk p1 p) x
     + Polynomial.evaluate (Polynomial.mk p2 p) x) mod p.
Proof.
  intros _.
  destruct (add_polynomials_spec p p1 p2 x) as (Hl & _ & He).
  split; [exact Hl|]. split.
  - unfold Polynomial.add_polynomials. rewrite Nat.max_comm.
    apply map_ext. intros i. rewrite Z.add_comm. reflexivity.
  - rewrite !evaluate_peval. unfold eqm in He. rewrite He.
    apply Zplus_mod.
Qed.

Lemma add_polynomials_is_sum_witness :
  length (Polynomial.add_polynomials [5; 6; 3] [4; 2] 7)
  = Nat.max (length [5; 6; 3]) (length [4; 2]) /\
  Polynomial.add_polynomials [5; 6; 3] [4; 2] 7
  = Polynomial.add_polynomials [4; 2] [5; 6; 3] 7 /\
  Polynomial.evaluate
    (Polynomial.mk (Polynomial.add_polynomials [5; 6; 3] [4; 2] 7) 7) 2
  = (Polynomial.evaluate (Polynomial.mk [5; 6; 3] 7) 2
     + Polynomial.evaluate (Polynomial.mk [4; 2] 7) 2) mod 7.
Proof.
  apply (add_polynomials_is_sum [5; 6; 3] [4; 2] 7 2). discriminate.
Defined.

(** X4.  For a non-zero modulus, [scalar_multiply] scales the
    polynomial: same number of coefficients, and evaluating the result
    gives the scalar times the evaluation, modulo the prime. *)
Theorem scalar_multiply_scales (poly : list Z) (scalar p x : Z) :
  p <> 0 ->
  length (Polynomial.scalar_multiply poly scalar p) = length poly /\
  Polynomial.evaluate
    (Polynomial.mk (Polynomial.scalar_multiply poly scalar p) p) x
  = (scalar * Polynomial.evaluate (Polynomial.mk poly p) x) mod p.
Proof.
  intros _.
  destruct (scalar_multiply_spec p poly scalar x) as (Hl & _ & He).
  split; [exact Hl|].
  rewrite !evaluate_peval. unfold eqm in He. rewrite He.
  rewrite Zmult_mod_idemp_r. reflexivity.
Qed.

Lemma scalar_multiply_scales_witness :
  length (Polynomial.scalar_multiply [5; 6; 3] 4 7) = length [5; 6; 3] /\
  Polynomial.evaluate
    (Polynomial.mk (Polynomial.scalar_multiply [5; 6; 3] 4 7) 7) 2
  = (4 * Polynomial.evaluate (Polynomial.mk [5; 6; 3] 7) 2) mod 7.
Proof.
  apply (scalar_multiply_scales [5; 6; 3] 4 7 2). discriminate.
Defined.

(** ** Interpolation *)

(** X5.  Over a prime field, for points with pairwise distinct
    x-coordinates, [interpolate] returns a polynomial over the same prime
    that passes through every given point; it has one coefficient per point
    (one for the empty list), each in [0 .. p-1]. *)
Theorem interpolate_passes_through_points (p : Z) (points : list (Z * Z)) :
  Z.prime p -> distinct_points p points ->
  exists poly,
    Polynomial.interpolate points p = Return poly /\
    Polynomial.prime poly = p /\
    length (Polynomial.coefficients poly) = Nat.max 1 (length points) /\
    (forall c, In c (Polynomial.coefficients poly) -> 0 <= c < p) /\
    (forall x y, In (x, y) points -> Polynomial.evaluate poly x = y mod p).
Proof.
  intros Hp Hd. pose proof (Z.prime_ge_2 _ Hp).
  destruct (interpolate_success p points Hp Hd) as (R & HR & Hl & Hr & He).
  exists (Polynomial.mk R p). split; [exact HR|]. split; [reflexivity|].
  split; [exact Hl|]. split.
  - intros c Hc. apply (reduced_bounds p); [lia|].
    exact (proj1 (Forall_forall _ _) Hr c Hc).
  - intros x y Hin. rewrite evaluate_peval. exact (He x y Hin).
Qed.

Lemma demo_points_distinct : distinct_points 23 [(1, 10); (2, 19); (4, 3)].
Proof.
  unfold distinct_points. cbv.
  repeat (constructor; [cbn [In]; intuition discriminate|]). constructor.
Qed.

Lemma interpolate_passes_through_points_witness :
  exists poly,
    Polynomial.interpolate [(1, 10); (2, 19); (4, 3)] 23 = Return poly /\
    Polynomial.evaluate poly 2 = 19 mod 23.
Proof.
  destruct (interpolate_passes_through_points 23 [(1, 10); (2, 19); (4, 3)]
              prime_23 demo_points_distinct)
    as (poly & Hpoly & _ & _ & _ & Hthrough).
  exists poly. split; [exact Hpoly|].
  apply Hthrough. right. left. reflexivity.
Defined.

Lemma peval_app_zeros (F : list Z) (k : nat) (x : Z) :
  peval (F ++ repeat 0 k) x = peval F x.
Proof.
  induction F as [|c F IH]; cbn [app peval].
  - apply peval_repeat_0.
  - rewrite IH. reflexivity.
Qed.

(** X6.  Round trip from shares back to the polynomial: evaluating a
    polynomial with coefficients in [0 .. p-1] at pairwise distinct points
    of a prime field, at least as many as it has coefficients, and
    interpolating the resulting pairs returns the same coefficients,
    followed by one zero for each surplus point. *)
Theorem interpolate_recovers_polynomial (p : Z) (F xs : list Z) :
  Z.prime p ->
  NoDup (map (fun x => x mod p) xs) ->
  F <> [] -> (length F <= length xs)%nat ->
  (forall c, In c F -> 0 <= c < p) ->
  Polynomial.interpolate
    (map (fun x => (x, Polynomial.evaluate (Polynomial.mk F p) x)) xs) p
  = Return (Polynomial.mk (F ++ repeat 0 (length xs - length F)) p).
Proof.
  intros Hp Hnd HF Hlen Hred.
  set (points := map (fun x => (x, Polynomial.evaluate (Polynomial.mk F p) x)) xs).
  assert (Hxs : map fst points = xs).
  { unfold points. rewrite map_map. cbn [fst]. apply map_id. }
  assert (Hd : distinct_points p points).
  { unfold distinct_points. rewrite <- (map_map fst (fun x => x mod p)), Hxs.
    exact Hnd. }
  assert (0 < length F)%nat by (destruct F; simpl; [congruence | lia]).
  destruct (interpolate_success p points Hp Hd) as (R & -> & HRl & HRr & HRe).
  assert (Hpl : length points = length xs) by (unfold points; apply length_map).
  do 2 f_equal.
  assert (HFr : Forall (reduced p) (F ++ repeat 0 (length xs - length F))).
  { apply Forall_app. split.
    - apply Forall_forall. intros c Hc. apply Z.mod_small, Hred, Hc.
    - apply Forall_reduced_repeat_0. }
  rewrite <- (map_mod_reduced p _ HFr).
  apply (coefficients_unique p xs); auto.
  - rewrite HRl, Hpl, length_app, repeat_length. lia.
  - rewrite HRl, Hpl. lia.
  - intros x Hx. rewrite peval_app_zeros.
    rewrite (HRe x (Polynomial.evaluate (Polynomial.mk F p) x)).
    + rewrite evaluate_peval. apply Zmod_eqm.
    + unfold points. apply in_map_iff. exists x. auto.
Qed.

Lemma interpolate_recovers_polynomial_witness :
  Polynomial.interpolate
    (map (fun x => (x, Polynomial.evaluate (Polynomial.mk [6; 9; 12] 23) x))
         [1; 2; 3; 4; 5]) 23
  = Return (Polynomial.mk [6; 9; 12; 0; 0] 23).
Proof.
  apply (interpolate_recovers_polynomial 23 [6; 9; 12] [1; 2; 3; 4; 5] prime_23).
  - cbv. repeat (constructor; [cbn [In]; intuition discriminate|]).
    constructor.
  - discriminate.
  - cbn [length]. lia.
  - intros c [<-|[<-|[<-|[]]]]; lia.
Defined.

(** ** What a successful update does to the registry *)

Lemma add_member_Return_Some self new_member_id member self' :
  add_member self new_member_id = Return (Some member, self') ->
  dict_mem (members self) new_member_id = false /\
  exists share,
    member = Member.mk new_member_id share (share ^ 2 mod prime self) true /\
    self' = with_members self (members self ++ [member])
              (active_member_count self + 1).
Proof.
  unfold add_member. intros H.
  destruct (dict_mem (members self) new_member_id) eqn:Hmem; [discriminate|].
  split; [reflexivity|].
  destruct (falsy (collect_threshold_shares self [])); [discriminate|].
  apply bind_Return_inv in H. destruct H as (poly & _ & H).
  cbn [py_pow Z.ltb Z.compare bind] in H. injection H as <- <-.
  eexists. split; [reflexivity|].
  rewrite dict_set_fresh
    by (cbn [Member.id]; apply dict_mem_false; exact Hmem).
  reflexivity.
Qed.

Lemma remove_member_Return_true self member_id rng self' :
  remove_member self member_id rng = Return (true, self') ->
  exists leaving F',
    dict_get (members self) member_id = Some leaving /\
    Member.is_active leaving = true /\
    falsy (collect_threshold_shares self [member_id]) = false /\
    self' = with_members self
              (dict_set_active
                 (map (redistributed (Polynomial.mk F' (prime self))
                         (prime self) member_id)
                      (members self))
                 member_id false)
              (active_member_count self - 1).
Proof.
  unfold remove_member. intros H.
  destruct (dict_get (members self) member_id) as [leaving|]; [|discriminate].
  destruct (Member.is_active leaving) eqn:Hact; [|discriminate].
  cbn [negb] in H.
  destruct (falsy (collect_threshold_shares self [member_id])) eqn:Hf;
    [discriminate|].
  apply bind_Return_inv in H. destruct H as (poly & _ & H).
  apply bind_Return_inv in H. destruct H as (secret & _ & H).
  apply bind_Return_inv in H. destruct H as (rest & _ & H).
  rewrite redistribute_loop in H. cbn [bind] in H. injection H as <-.
  exists leaving, (secret :: rest).
  split; [reflexivity|]. split; [exact Hact|]. split; reflexivity.
Qed.

Lemma redistributed_id new_poly p member_id m :
  Member.id (redistributed new_poly p member_id m) = Member.id m.
Proof.
  unfold redistributed.
  destruct (negb (Member.id m =? member_id) && Member.is_active m);
    reflexivity.
Qed.

Lemma dict_set_active_ids d k b :
  map Member.id (dict_set_active d k b) = map Member.id d.
Proof.
  induction d as [|m d IH]; cbn [dict_set_active map]; [reflexivity|].
  destruct (Member.id m =? k); cbn [map Member.set_is_active Member.id].
  - reflexivity.
  - rewrite IH. reflexivity.
Qed.

Lemma dict_get_dict_set_active d k b :
  dict_get (dict_set_active d k b) k
  = option_map (fun m => Member.set_is_active m b) (dict_get d k).
Proof.
  unfold dict_get. induction d as [|m d IH]; cbn [dict_set_active find];
    [reflexivity|].
  destruct (Z.eqb_spec (Member.id m) k) as [E|E]; cbn [find].
  - cbn [Member.set_is_active Member.id]. rewrite E, Z.eqb_refl. reflexivity.
  - destruct (Z.eqb_spec (Member.id m) k); [contradiction | exact IH].
Qed.

Lemma dict_get_map (g : Member.t -> Member.t) d k :
  (forall m, Member.id (g m) = Member.id m) ->
  dict_get (map g d) k = option_map g (dict_get d k).
Proof.
  intros Hg. unfold dict_get. induction d as [|m d IH]; cbn [map find];
    [reflexivity|].
  rewrite Hg. destruct (Member.id m =? k); [reflexivity | exact IH].
Qed.

Lemma dict_mem_ids d k :
  dict_mem d k = existsb (Z.eqb k) (map Member.id d).
Proof.
  unfold dict_mem. induction d as [|m d IH]; cbn [existsb map]; [reflexivity|].
  rewrite IH, (Z.eqb_sym k). reflexivity.
Qed.

Lemma dict_get_mem d k m : dict_get d k = Some m -> dict_mem d k = true.
Proof.
  intros H. apply dict_get_Some in H. destruct H as [Hin Hid].
  unfold dict_mem. apply existsb_exists. exists m.
  split; [exact Hin | apply Z.eqb_eq, Hid].
Qed.

(** The member left in the dictionary for the key that was removed. *)
Lemma removed_entry self member_id rng self' :
  remove_member self member_id rng = Return (true, self') ->
  exists leaving,
    dict_get (members self) member_id = Some leaving /\
    Member.is_active leaving = true /\
    dict_get (members self') member_id
    = Some (Member.set_is_active leaving false).
Proof.
  intros H. apply remove_member_Return_true in H.
  destruct H as (leaving & F' & Hget & Hact & _ & ->).
  exists leaving. split; [exact Hget|]. split; [exact Hact|].
  cbn [with_members members].
  rewrite dict_get_dict_set_active, dict_get_map, Hget
    by apply redistributed_id.
  cbn [option_map]. unfold redistributed.
  apply dict_get_Some in Hget. destruct Hget as [_ Hid].
  rewrite Hid, Z.eqb_refl. reflexivity.
Qed.

(** ** The constructor *)

(** X7.  The constructor returns a manager exactly when the threshold does
    not exceed the initial population and the prime is above 2; otherwise
    it raises [ValueError] (from its own check, or from [randrange(2,
    prime)] on an empty range), whatever the random source gives. *)
Theorem constructor_outcome (t n p : Z) (rng : nat -> Z) :
  (t <= n /\ 2 < p -> exists self, init t n p rng = Return self) /\
  (n < t \/ p <= 2 -> init t n p rng = Raise ValueError).
Proof.
  split.
  - intros [Htn Hp]. apply init_total; assumption.
  - intros H. unfold init. destruct (Z.gtb_spec t n) as [|Htn]; [reflexivity|].
    destruct H as [H|H]; [lia|].
    unfold setup_initial_shares, randrange. cbn [prime].
    destruct (Z.ltb_spec 2 p); [lia | reflexivity].
Qed.

Lemma length_range_max lo hi :
  Z.of_nat (length (range lo hi)) = Z.max 0 (hi - lo).
Proof. rewrite length_range. lia. Qed.

(** X8.  The manager the constructor returns stores the threshold and the
    prime it was given and a secret in [2 .. p-1]; its members have the ids
    [1 .. n] in this order, all are active, each public key is the square
    of the share modulo the prime, and the count equals [n]. *)
Theorem constructor_state (t n p : Z) (rng : nat -> Z)
  (self : ConsortiumKeyManager.t) :
  init t n p rng = Return self ->
  threshold self = t /\ prime self = p /\
  2 <= master_secret self < p /\
  map Member.id (members self) = range 1 (n + 1) /\
  (forall m, In m (members self) ->
     Member.is_active m = true /\
     Member.public_key m = Member.share m ^ 2 mod p) /\
  active_member_count self = Z.max 0 n.
Proof.
  intros Hinit.
  destruct (init_Return _ _ _ _ _ Hinit)
    as (secret & rest & Htn & Hp2 & Hs & Hr & ->).
  cbn [threshold prime master_secret members active_member_count].
  split; [reflexivity|]. split; [reflexivity|]. split; [exact Hs|].
  split; [|split].
  - rewrite map_map. cbn [initial_member Member.id]. apply map_id.
  - intros m Hm. apply in_map_iff in Hm. destruct Hm as (i & <- & _).
    split; reflexivity.
  - rewrite length_range_max. f_equal. lia.
Qed.

Lemma constructor_state_witness :
  map Member.id (members demo_manager) = range 1 (5 + 1) /\
  active_member_count demo_manager = Z.max 0 5.
Proof.
  destruct (constructor_state 3 5 23 demo_rng demo_manager demo_manager_init)
    as (_ & _ & _ & Hids & _ & Hcount).
  split; assumption.
Defined.

(** X9.  With threshold 1 the sharing polynomial is constant: every member
    the constructor creates holds the master secret itself as its share. *)
Theorem threshold_one_shares_are_the_secret (n p : Z) (rng : nat -> Z)
  (self : ConsortiumKeyManager.t) :
  init 1 n p rng = Return self ->
  forall m, In m (members self) -> Member.share m = master_secret self.
Proof.
  intros Hinit m Hm.
  destruct (init_Return _ _ _ _ _ Hinit)
    as (secret & rest & Htn & Hp2 & Hs & Hr & ->).
  change (Z.to_nat (1 - 1)) with 0%nat in Hr.
  destruct rest; [|discriminate Hr].
  cbn [members master_secret] in *.
  apply in_map_iff in Hm. destruct Hm as (i & <- & _).
  cbn [initial_member Member.share].
  rewrite evaluate_peval. cbn [peval].
  rewrite Z.mul_0_r, Z.add_0_r. apply Z.mod_small. lia.
Qed.

Lemma threshold_one_shares_are_the_secret_witness :
  Forall
    (fun m =>
       Member.share m
       = master_secret (state_of empty_manager (init 1 4 23 demo_rng)))
    (members (state_of empty_manager (init 1 4 23 demo_rng))).
Proof.
  apply Forall_forall.
  exact (threshold_one_shares_are_the_secret 4 23 demo_rng
           (state_of empty_manager (init 1 4 23 demo_rng))
           ltac:(vm_compute; reflexivity)).
Defined.

(** ** Joining and leaving: what changes and what does not *)

(** X10.  A successful [add_member] appends one record and touches nothing
    else: the new member carries the requested id, is active, has the
    square of its share as public key and is stored last; the earlier
    records, the threshold, the prime and the master secret are unchanged
    and the count grows by one. *)
Theorem add_member_appends self new_member_id member self' :
  add_member self new_member_id = Return (Some member, self') ->
  Member.id member = new_member_id /\
  Member.is_active member = true /\
  Member.public_key member = Member.share member ^ 2 mod prime self /\
  members self' = members self ++ [member] /\
  active_member_count self' = active_member_count self + 1 /\
  threshold self' = threshold self /\ prime self' = prime self /\
  master_secret self' = master_secret self.
Proof.
  intros H. apply add_member_Return_Some in H.
  destruct H as (_ & share & -> & ->).
  repeat split; reflexivity.
Qed.

Lemma demo_with_6_added :
  exists member self',
    add_member demo_manager 6 = Return (Some member, self').
Proof. eexists. eexists. vm_compute. reflexivity. Qed.

Lemma add_member_appends_witness :
  exists member self',
    add_member demo_manager 6 = Return (Some member, self') /\
    members self' = members demo_manager ++ [member].
Proof.
  destruct demo_with_6_added as (member & self' & Hadd).
  exists member, self'. split; [exact Hadd|].
  exact (proj1 (proj2 (proj2 (proj2
           (add_member_appends demo_manager 6 member self' Hadd))))).
Defined.

Lemma In_dict_set_active d k b m :
  In m (dict_set_active d k b) ->
  exists m0, In m0 d /\ (m = m0 \/ m = Member.set_is_active m0 b).
Proof.
  induction d as [|m' d IH]; cbn [dict_set_active In]; [tauto|].
  destruct (Member.id m' =? k); cbn [In].
  - intros [E|Hin]; [exists m'; auto | exists m; auto].
  - intros [E|Hin]; [exists m'; auto|].
    destruct (IH Hin) as (m0 & Hm0 & Hor). exists m0. auto.
Qed.

Lemma nth_error_dict_set_active d k b i m :
  nth_error d i = Some m ->
  exists m', nth_error (dict_set_active d k b) i = Some m' /\
             (m' = m \/ (Member.id m = k /\ m' = Member.set_is_active m b)).
Proof.
  revert i. induction d as [|m0 d IH]; intros [|i] H;
    cbn [nth_error dict_set_active] in *; try discriminate.
  - injection H as ->.
    destruct (Z.eqb_spec (Member.id m) k); cbn [nth_error]; eauto.
  - destruct (Member.id m0 =? k); cbn [nth_error]; eauto.
Qed.

(** X11.  A successful [remove_member] deletes nothing: the dictionary
    keeps the same keys in the same order, and the record found under the
    removed key is the old one with only its flag cleared (same share and
    public key).  Records that were already inactive are left exactly as
    they were, and the threshold, prime and master secret are unchanged. *)
Theorem remove_member_retains_records self member_id rng self' :
  remove_member self member_id rng = Return (true, self') ->
  map Member.id (members self') = map Member.id (members self) /\
  (exists leaving,
     dict_get (members self) member_id = Some leaving /\
     Member.is_active leaving = true /\
     dict_get (members self') member_id
     = Some (Member.mk (Member.id leaving) (Member.share leaving)
               (Member.public_key leaving) false)) /\
  (forall i m, nth_error (members self) i = Some m ->
     Member.is_active m = false ->
     nth_error (members self') i = Some m) /\
  threshold self' = threshold self /\ prime self' = prime self /\
  master_secret self' = master_secret self.
Proof.
  intros H. pose proof (removed_entry _ _ _ _ H) as (leaving & Hget & Hact & Hget').
  apply remove_member_Return_true in H.
  destruct H as (leaving' & F' & _ & _ & _ & ->).
  set (new_poly := Polynomial.mk F' (prime self)).
  cbn [with_members members threshold prime master_secret] in *.
  split; [|split; [|split; [|repeat split; reflexivity]]].
  - rewrite dict_set_active_ids, map_map.
    apply map_ext. intros m. apply redistributed_id.
  - exists leaving. split; [exact Hget|]. split; [exact Hact|]. exact Hget'.
  - intros i m Hi Hinactive.
    assert (Hi' : nth_error
                    (map (redistributed new_poly (prime self) member_id)
                         (members self)) i = Some m).
    { rewrite nth_error_map, Hi. cbn [option_map]. unfold redistributed.
      rewrite Hinactive, andb_false_r. reflexivity. }
    destruct (nth_error_dict_set_active _ member_id false _ _ Hi')
      as (m' & -> & [->|[_ ->]]); [reflexivity|].
    destruct m as [i0 s0 k0 a0]. cbn [Member.is_active] in Hinactive.
    subst a0. reflexivity.
Qed.

Lemma remove_member_retains_records_witness :
  map Member.id (members demo_without_2) = map Member.id (members demo_manager).
Proof.
  exact (proj1 (remove_member_retains_records demo_manager 2 demo_rng
                  demo_without_2 demo_without_2_removed)).
Defined.

(** X12.  Leaving is final: after a successful [remove_member(id)] the id
    can neither be added again ([add_member] returns [None]) nor removed
    again ([remove_member] returns [False]), and both calls leave the
    manager as it is. *)
Theorem removed_member_cannot_return self member_id rng self' :
  remove_member self member_id rng = Return (true, self') ->
  add_member self' member_id = Return (None, self') /\
  (forall rng', remove_member self' member_id rng' = Return (false, self')).
Proof.
  intros H. destruct (removed_entry _ _ _ _ H) as (leaving & _ & _ & Hget').
  split.
  - unfold add_member. rewrite (dict_get_mem _ _ _ Hget'). reflexivity.
  - intros rng'. unfold remove_member. rewrite Hget'. reflexivity.
Qed.

Lemma removed_member_cannot_return_witness :
  add_member demo_without_2 2 = Return (None, demo_without_2).
Proof.
  exact (proj1 (removed_member_cannot_return demo_manager 2 demo_rng
                  demo_without_2 demo_without_2_removed)).
Defined.

(** X13.  A removed member can no longer sign: after a successful
    [remove_member(id)], [sign_message] returns [None] for every message
    and every signer list that has the id among its first [threshold]
    entries. *)
Theorem removed_member_cannot_sign (sha256_int : string -> Z)
  self member_id rng self' message signers :
  remove_member self member_id rng = Return (true, self') ->
  0 <= threshold self ->
  In member_id (firstn (Z.to_nat (threshold self)) signers) ->
  sign_message sha256_int self' message signers = Return None.
Proof.
  intros H Ht Hin.
  destruct (removed_entry _ _ _ _ H) as (leaving & _ & _ & Hget').
  apply remove_member_Return_true in H.
  destruct H as (leaving' & F' & _ & _ & _ & ->).
  apply (sign_message_inactive sha256_int _ message signers member_id).
  - exact Ht.
  - exact Hin.
  - unfold active_member. rewrite Hget'. reflexivity.
Qed.

Lemma removed_member_cannot_sign_witness :
  sign_message demo_hash demo_without_1 demo_message [2; 1; 3] = Return None.
Proof.
  exact (removed_member_cannot_sign demo_hash demo_manager 1 demo_rng
           demo_without_1 demo_message [2; 1; 3] demo_without_1_removed
           ltac:(vm_compute; discriminate) (or_intror (or_introl eq_refl))).
Defined.

(** ** Invariants of the registry *)

Lemma eligible_count d k leaving :
  NoDup (map Member.id d) ->
  dict_get d k = Some leaving -> Member.is_active leaving = true ->
  S (length (filter (eligible [k]) d)) = length (filter Member.is_active d).
Proof.
  unfold dict_get.
  induction d as [|m d IH]; cbn [map find filter]; intros Hnd Hget Hact;
    [discriminate|].
  inversion Hnd as [|? ? Hnotin Hnd']; subst.
  unfold eligible at 1. cbn [existsb]. rewrite orb_false_r.
  destruct (Z.eqb_spec (Member.id m) k) as [E|E].
  - injection Hget as ->. subst k. rewrite Hact. cbn [negb andb length].
    f_equal. f_equal. apply filter_ext_in. intros m' Hm'.
    unfold eligible. cbn [existsb]. rewrite orb_false_r.
    destruct (Z.eqb_spec (Member.id m') (Member.id leaving)) as [E'|_].
    + exfalso. apply Hnotin. rewrite <- E'. apply in_map, Hm'.
    + apply andb_true_r.
  - cbn [negb]. rewrite andb_true_r.
    destruct (Member.is_active m); cbn [length];
      rewrite <- (IH Hnd' Hget Hact); reflexivity.
Qed.

Lemma removed_members self F' member_id :
  NoDup (map Member.id (members self)) ->
  dict_set_active
    (map (redistributed (Polynomial.mk F' (prime self)) (prime self) member_id)
         (members self))
    member_id false
  = map (refreshed F' (prime self) member_id) (members self).
Proof. intros Hnd. apply (deactivate_refreshed F' _ _ _ Hnd). Qed.

(** X14.  The count is kept in step with the dictionary: the constructor
    leaves a dictionary with pairwise different keys whose
    [active_member_count] is the number of members flagged active, and
    every call of [add_member] or [remove_member] that returns (whether it
    succeeds or fails) keeps both facts. *)
Theorem active_count_invariant :
  (forall t n p rng self,
     init t n p rng = Return self ->
     NoDup (map Member.id (members self)) /\ well_counted self) /\
  (forall self new_member_id result self',
     NoDup (map Member.id (members self)) /\ well_counted self ->
     add_member self new_member_id = Return (result, self') ->
     NoDup (map Member.id (members self')) /\ well_counted self') /\
  (forall self member_id rng result self',
     NoDup (map Member.id (members self)) /\ well_counted self ->
     remove_member self member_id rng = Return (result, self') ->
     NoDup (map Member.id (members self')) /\ well_counted self').
Proof.
  unfold well_counted. split; [|split].
  - intros t n p rng self Hinit.
    destruct (init_Return _ _ _ _ _ Hinit)
      as (secret & rest & _ & _ & _ & _ & ->).
    cbn [members active_member_count]. split.
    + rewrite map_map. cbn [initial_member Member.id]. rewrite map_id.
      apply range_NoDup.
    + rewrite filter_all, length_map; [reflexivity|].
      intros m Hm. apply in_map_iff in Hm. destruct Hm as (i & <- & _).
      reflexivity.
  - intros self new_member_id [member|] self' [Hnd Hcount] Hadd.
    + apply add_member_Return_Some in Hadd.
      destruct Hadd as (Hfresh & share & -> & ->).
      cbn [with_members members active_member_count]. split.
      * rewrite map_app. apply NoDup_snoc; [exact Hnd|].
        apply dict_mem_false. exact Hfresh.
      * rewrite filter_app, length_app. cbn [filter Member.is_active length].
        lia.
    + destruct (add_member_failure _ _ _ _ Hadd eq_refl) as [-> _]. auto.
  - intros self member_id rng [|] self' [Hnd Hcount] Hremove.
    + apply remove_member_Return_true in Hremove.
      destruct Hremove as (leaving & F' & Hget & Hact & _ & ->).
      rewrite (removed_members _ _ _ Hnd).
      cbn [with_members members active_member_count]. split.
      * rewrite map_map.
        rewrite (map_ext _ Member.id) by (intros m; apply refreshed_id).
        exact Hnd.
      * rewrite filter_map_commute, length_map.
        rewrite (filter_ext _ (eligible [member_id]))
          by (intros m; apply refreshed_is_active).
        pose proof (eligible_count _ _ _ Hnd Hget Hact). lia.
    + destruct (remove_member_failure _ _ _ _ _ Hremove eq_refl) as [-> _].
      auto.
Qed.

(** X15.  Public keys follow the shares: after the constructor, and after
    every [add_member] or [remove_member] that returns, each record in the
    dictionary (active or not) has [public_key = share^2 mod prime]. *)
Theorem public_key_invariant :
  (forall t n p rng self, init t n p rng = Return self -> keys_paired self) /\
  (forall self new_member_id result self',
     keys_paired self ->
     add_member self new_member_id = Return (result, self') ->
     keys_paired self') /\
  (forall self member_id rng result self',
     keys_paired self ->
     remove_member self member_id rng = Return (result, self') ->
     keys_paired self').
Proof.
  unfold keys_paired. split; [|split].
  - intros t n p rng self Hinit m Hm.
    destruct (init_Return _ _ _ _ _ Hinit)
      as (secret & rest & _ & _ & _ & _ & ->).
    cbn [members prime] in *.
    apply in_map_iff in Hm. destruct Hm as (i & <- & _). reflexivity.
  - intros self new_member_id [member|] self' Hkeys Hadd.
    + apply add_member_Return_Some in Hadd.
      destruct Hadd as (_ & share & -> & ->).
      cbn [with_members members prime]. intros m Hm.
      apply in_app_iff in Hm. destruct Hm as [Hm|[<-|[]]];
        [apply Hkeys, Hm | reflexivity].
    + destruct (add_member_failure _ _ _ _ Hadd eq_refl) as [-> _].
      exact Hkeys.
  - intros self member_id rng [|] self' Hkeys Hremove.
    + apply remove_member_Return_true in Hremove.
      destruct Hremove as (leaving & F' & _ & _ & _ & ->).
      cbn [with_members members prime]. intros m Hm.
      apply In_dict_set_active in Hm. destruct Hm as (m0 & Hm0 & Hm).
      apply in_map_iff in Hm0. destruct Hm0 as (m1 & <- & Hm1).
      assert (H1 : Member.public_key
                     (redistributed (Polynomial.mk F' (prime self))
                        (prime self) member_id m1)
                   = Member.share
                       (redistributed (Polynomial.mk F' (prime self))
                          (prime self) member_id m1) ^ 2 mod prime self).
      { unfold redistributed.
        destruct (negb (Member.id m1 =? member_id) && Member.is_active m1);
          [reflexivity | apply Hkeys, Hm1]. }
      destruct Hm as [->| ->]; exact H1.
    + destruct (remove_member_failure _ _ _ _ _ Hremove eq_refl) as [-> _].
      exact Hkeys.
Qed.

(** ** Collecting shares *)

(** X16.  For a threshold of at least 1, [collect_threshold_shares] either
    returns exactly [threshold] pairs — the current [(id, share)] of the
    first [threshold] active, non-excluded members in dictionary order — or
    returns [None], which it does exactly when fewer than [threshold]
    members are active and not excluded. *)
Theorem collect_threshold_shares_result self exclude :
  1 <= threshold self ->
  (forall shares,
     collect_threshold_shares self exclude = Some shares ->
     Z.of_nat (length shares) = threshold self /\
     shares = firstn (Z.to_nat (threshold self))
                (map pair_of (filter (eligible exclude) (members self))) /\
     (forall pr, In pr shares ->
        exists m, In m (members self) /\ Member.is_active m = true /\
                  ~ In (Member.id m) exclude /\ pr = pair_of m)) /\
  (collect_threshold_shares self exclude = None <->
   Z.of_nat (length (filter (eligible exclude) (members self)))
   < threshold self).
Proof.
  intros Ht. rewrite collect_threshold_shares_spec by exact Ht.
  rewrite length_map.
  destruct (Z.leb_spec (threshold self)
              (Z.of_nat (length (filter (eligible exclude) (members self)))))
    as [Hle|Hlt].
  - split; [|split; [discriminate | lia]].
    intros shares H. injection H as <-. split; [|split; [reflexivity|]].
    + rewrite length_firstn, length_map. lia.
    + intros pr Hpr. apply In_firstn, in_map_iff in Hpr.
      destruct Hpr as (m & <- & Hm). apply filter_In in Hm.
      destruct Hm as [Hm Hel]. exists m. split; [exact Hm|].
      unfold eligible in Hel. apply andb_true_iff in Hel.
      destruct Hel as [Hact Hex]. split; [exact Hact|]. split; [|reflexivity].
      intros Hin. apply negb_true_iff in Hex.
      assert (existsb (Z.eqb (Member.id m)) exclude = true); [|congruence].
      apply existsb_exists. exists (Member.id m).
      split; [exact Hin | apply Z.eqb_refl].
  - split; [intros shares H; discriminate|]. split; [intros _; exact Hlt | reflexivity].
Qed.

Lemma collect_threshold_shares_result_witness :
  exists shares,
    collect_threshold_shares demo_without_2 [4] = Some shares /\
    Z.of_nat (length shares) = threshold demo_without_2.
Proof.
  destruct (collect_threshold_shares demo_without_2 [4]) as [shares|] eqn:E;
    [|vm_compute in E; discriminate].
  exists shares. split; [reflexivity|].
  exact (proj1 (proj1 (collect_threshold_shares_result demo_without_2 [4]
                         ltac:(vm_compute; discriminate)) shares E)).
Defined.

(** ** The stored secret across membership changes *)

Lemma init_keyed t n p rng self :
  init t n p rng = Return self ->
  Z.prime p -> 1 <= t -> n < p ->
  exists F, keyed self F.
Proof.
  intros Hinit Hp Ht Hn.
  destruct (init_consistent _ _ _ _ _ Hinit Hp Ht Hn)
    as (F & HC & Hsecret & _ & Hprime & _).
  exists F. split; [exact HC|]. rewrite Hprime. exact Hsecret.
Qed.

Lemma remove_member_enough_eligible self F member_id rng self' :
  consistent self F ->
  remove_member self member_id rng = Return (true, self') ->
  threshold self
  <= Z.of_nat (length (filter (eligible [member_id]) (members self))).
Proof.
  intros HC H. apply remove_member_Return_true in H.
  destruct H as (leaving & F' & _ & _ & Hfalsy & _).
  rewrite collect_threshold_shares_spec in Hfalsy
    by exact (c_threshold _ _ HC).
  rewrite length_map in Hfalsy.
  destruct (Z.leb_spec (threshold self)
              (Z.of_nat (length (filter (eligible [member_id]) (members self)))));
    [assumption | discriminate].
Qed.

Lemma remove_member_keyed self F member_id rng self' :
  keyed self F ->
  remove_member self member_id rng = Return (true, self') ->
  exists F', keyed self' F' /\
             Polynomial.evaluate (Polynomial.mk F' (prime self)) 0
             = Polynomial.evaluate (Polynomial.mk F (prime self)) 0.
Proof.
  intros [HC Hsecret] Hrun.
  pose proof (remove_member_enough_eligible _ _ _ _ _ HC Hrun) as Hcount.
  destruct (remove_member_true _ _ _ _ Hrun) as (leaving & Hget & Hact).
  rewrite (remove_member_reshare _ _ _ _ _ HC Hget Hact Hcount) in Hrun.
  apply bind_Return_inv in Hrun. destruct Hrun as (rest & Hrest & Hrun).
  injection Hrun as <-.
  apply random_coefficients_length in Hrest.
  pose proof (c_threshold _ _ HC) as Ht.
  set (F' := Polynomial.evaluate (Polynomial.mk F (prime self)) 0 :: rest).
  assert (Hdeg : Z.of_nat (length F') = threshold self)
    by (unfold F'; cbn [length]; lia).
  assert (H0 : Polynomial.evaluate (Polynomial.mk F' (prime self)) 0
               = Polynomial.evaluate (Polynomial.mk F (prime self)) 0).
  { unfold F'. rewrite evaluate_0. apply evaluate_reduced. }
  exists F'. split; [split|exact H0].
  - apply (refreshed_consistent self F); assumption.
  - cbn [with_members master_secret prime]. rewrite H0. exact Hsecret.
Qed.

Lemma add_member_keyed self F new_member_id member self' :
  keyed self F ->
  add_member self new_member_id = Return (Some member, self') ->
  ~ In (new_member_id mod prime self)
       (map (fun m => Member.id m mod prime self)
            (filter Member.is_active (members self))) ->
  keyed self' F.
Proof.
  intros [HC Hsecret] Hadd Hnew. split.
  - exact (add_member_consistent _ _ _ _ _ HC Hadd Hnew).
  - apply add_member_Return_Some in Hadd.
    destruct Hadd as (_ & share & _ & ->). exact Hsecret.
Qed.

Lemma sign_verify_keyed (sha256_int : string -> Z) self F message signers :
  keyed self F ->
  Z.of_nat (length signers) = threshold self ->
  NoDup signers ->
  (forall signer_id, In signer_id signers ->
     active_member self signer_id = true) ->
  sign_message sha256_int self message signers
  = Return (Some (sha256_int message ^ master_secret self mod prime self)) /\
  verify_signature sha256_int self message
    (sha256_int message ^ master_secret self mod prime self)
  = Return true.
Proof.
  intros [HC Hsecret] Hlen Hnd Hall.
  destruct (signers_quorum _ _ _ HC Hlen Hnd Hall) as (ms & HQ & Hpairs).
  pose proof (quorum_interpolates _ _ _ HC HQ) as Hpoly.
  rewrite Hpairs in Hpoly.
  pose proof (c_threshold _ _ HC) as Ht.
  assert (Hfirst : firstn (Z.to_nat (threshold self)) signers = signers)
    by (apply firstn_all2; lia).
  pose proof (Z.prime_ge_2 _ (c_prime _ _ HC)).
  assert (Hpos : 0 <= master_secret self).
  { rewrite Hsecret, evaluate_peval. apply Z.mod_pos_bound. lia. }
  split.
  - apply (sign_message_active sha256_int self message signers
             (Polynomial.mk (map (fun c => c mod prime self) F) (prime self))).
    + lia.
    + rewrite Hfirst. exact Hall.
    + rewrite Hfirst. exact Hpoly.
    + cbn [Polynomial.coefficients]. rewrite (constant_term_mod _ _ HC).
      rewrite Hsecret. reflexivity.
    + exact Hpos.
  - unfold verify_signature, py_pow.
    destruct (Z.ltb_spec (master_secret self) 0); [lia|].
    cbn [bind]. rewrite Z.eqb_refl. reflexivity.
Qed.

(** X17.  The link between the shares and the stored secret survives
    membership changes: the constructor (prime [p], [1 <= t], [n < p])
    leaves active shares on a polynomial whose constant term is
    [master_secret]; a successful [remove_member] leaves them on a new
    polynomial with the same constant term, still equal to
    [master_secret]; and a successful [add_member] whose id is a new point
    of the field keeps the polynomial. *)
Theorem secret_link_invariant :
  (forall t n p rng self,
     init t n p rng = Return self -> Z.prime p -> 1 <= t -> n < p ->
     exists F, keyed self F) /\
  (forall self F member_id rng self',
     keyed self F ->
     remove_member self member_id rng = Return (true, self') ->
     exists F', keyed self' F' /\
                Polynomial.evaluate (Polynomial.mk F' (prime self)) 0
                = Polynomial.evaluate (Polynomial.mk F (prime self)) 0) /\
  (forall self F new_member_id member self',
     keyed self F ->
     add_member self new_member_id = Return (Some member, self') ->
     ~ In (new_member_id mod prime self)
          (map (fun m => Member.id m mod prime self)
               (filter Member.is_active (members self))) ->
     keyed self' F).
Proof.
  split; [|split].
  - exact init_keyed.
  - exact remove_member_keyed.
  - exact add_member_keyed.
Qed.

(** X18.  In any state that satisfies [keyed] (prime modulus, threshold
    at least 1, active ids pairwise distinct modulo the prime, active
    shares on a polynomial of [threshold] coefficients whose constant term
    is the stored secret), every list of [threshold] different active ids
    signs to the same value [hash(message)^master_secret mod prime],
    whichever members it names, and [verify_signature] accepts that value.
    (The constructor builds such a state, and removals and joins of ids
    that are new modulo the prime keep it.) *)
Theorem signature_independent_of_quorum (sha256_int : string -> Z)
  self F message signers signers' :
  keyed self F ->
  Z.of_nat (length signers) = threshold self ->
  Z.of_nat (length signers') = threshold self ->
  NoDup signers -> NoDup signers' ->
  (forall signer_id, In signer_id signers \/ In signer_id signers' ->
     active_member self signer_id = true) ->
  exists signature,
    sign_message sha256_int self message signers = Return (Some signature) /\
    sign_message sha256_int self message signers' = Return (Some signature) /\
    signature = sha256_int message ^ master_secret self mod prime self /\
    verify_signature sha256_int self message signature = Return true.
Proof.
  intros HK Hlen Hlen' Hnd Hnd' Hall.
  destruct (sign_verify_keyed sha256_int self F message signers HK Hlen Hnd)
    as [Hs Hv]; [intros i Hi; apply Hall; left; exact Hi|].
  destruct (sign_verify_keyed sha256_int self F message signers' HK Hlen' Hnd')
    as [Hs' _]; [intros i Hi; apply Hall; right; exact Hi|].
  eexists. split; [exact Hs|]. split; [exact Hs'|].
  split; [reflexivity | exact Hv].
Qed.

Lemma keyed_demo_manager : keyed demo_manager [6; 9; 12].
Proof. split; [exact demo_manager_consistent | reflexivity]. Qed.

Lemma signature_independent_of_quorum_witness :
  exists signature,
    sign_message demo_hash demo_without_2 demo_message [1; 3; 4]
    = Return (Some signature) /\
    sign_message demo_hash demo_without_2 demo_message [5; 4; 3]
    = Return (Some signature).
Proof.
  destruct (remove_member_keyed demo_manager [6; 9; 12] 2 demo_rng
              demo_without_2 keyed_demo_manager demo_without_2_removed)
    as (F' & HK & _).
  destruct (signature_independent_of_quorum demo_hash demo_without_2 F'
              demo_message [1; 3; 4] [5; 4; 3] HK eq_refl eq_refl)
    as (signature & H1 & H2 & _).
  - repeat (constructor; [cbn [In]; intuition discriminate|]). constructor.
  - repeat (constructor; [cbn [In]; intuition discriminate|]). constructor.
  - intros i [[<-|[<-|[<-|[]]]]|[<-|[<-|[<-|[]]]]]; reflexivity.
  - exists signature. split; assumption.
Defined.

(** ** Signers beyond the threshold *)

Lemma sign_message_firstn (sha256_int : string -> Z) self message signers :
  0 <= threshold self <= Z.of_nat (length signers) ->
  sign_message sha256_int self message signers
  = sign_message sha256_int self message
      (firstn (Z.to_nat (threshold self)) signers).
Proof.
  intros Ht. unfold sign_message.
  rewrite length_firstn.
  destruct (Z.ltb_spec (Z.of_nat (length signers)) (threshold self)); [lia|].
  destruct (Z.ltb_spec
              (Z.of_nat (Nat.min (Z.to_nat (threshold self)) (length signers)))
              (threshold self)); [lia|].
  rewrite !signer_shares_spec, !slice_to_firstn by lia.
  rewrite firstn_firstn, Nat.min_id. reflexivity.
Qed.

(** X19.  [sign_message] never looks past the first [threshold] entries of
    the signer list: a list of at least [threshold] ids gives the same
    result (signature, [None] or exception) as its first [threshold]
    entries alone, whatever follows them. *)
Theorem sign_message_reads_first_threshold (sha256_int : string -> Z)
  self message signers :
  0 <= threshold self <= Z.of_nat (length signers) ->
  sign_message sha256_int self message signers
  = sign_message sha256_int self message (slice_to signers (threshold self)).
Proof.
  intros Ht. rewrite slice_to_firstn by lia.
  apply sign_message_firstn. exact Ht.
Qed.

Lemma sign_message_reads_first_threshold_witness :
  sign_message demo_hash demo_manager demo_message [1; 2; 3; 99; 4]
  = sign_message demo_hash demo_manager demo_message
      (slice_to [1; 2; 3; 99; 4] (threshold demo_manager)).
Proof.
  apply (sign_message_reads_first_threshold demo_hash demo_manager
           demo_message [1; 2; 3; 99; 4]).
  cbv. split; discriminate.
Defined.

(** ** The primality test *)

Lemma halve_loop_spec fuel : forall r s,
  0 < s -> (Z.to_nat s <= fuel)%nat ->
  exists r' s', halve_loop fuel r s = (r', s') /\
    r <= r' /\ 0 < s' /\ s' mod 2 = 1 /\ s = 2 ^ (r' - r) * s'.
Proof.
  induction fuel as [|fuel IH]; intros r s Hs Hf; [lia|].
  cbn [halve_loop]. pose proof (Z.div_mod s 2 ltac:(lia)) as Hdm.
  pose proof (Z.mod_pos_bound s 2 ltac:(lia)) as Hb.
  destruct (Z.eqb_spec (s mod 2) 0) as [He|Ho].
  - destruct (IH (r + 1) (s / 2)) as (r' & s' & E & Hr & Hpos & Hodd & Hs');
      [lia | lia |].
    exists r', s'. split; [exact E|]. split; [lia|].
    split; [exact Hpos|]. split; [exact Hodd|].
    replace (r' - r) with (Z.succ (r' - (r + 1))) by lia.
    rewrite Z.pow_succ_r by lia. lia.
  - exists r, s. split; [reflexivity|]. split; [lia|]. split; [lia|].
    split; [lia|]. rewrite Z.sub_diag. lia.
Qed.

Lemma square_root_of_one n x :
  Z.prime n -> 0 <= x < n -> (x * x) mod n = 1 -> x = 1 \/ x = n - 1.
Proof.
  intros Hn Hx H. pose proof (Z.prime_ge_2 _ Hn) as H2.
  assert (Hd : (n | (x - 1) * (x + 1))).
  { exists (x * x / n). pose proof (Z.div_mod (x * x) n ltac:(lia)). lia. }
  apply Z.divide_prime_mul in Hd; [|exact Hn].
  destruct Hd as [[k Hk]|[k Hk]]; [left | right].
  - assert (k = 0) by (destruct (Z.lt_trichotomy k 0) as [|[|]]; nia). nia.
  - assert (k = 1) by (destruct (Z.lt_trichotomy k 1) as [|[|]]; nia). nia.
Qed.

Lemma square_chain n (Hn : Z.prime n) (H2 : 2 < n) : forall (r : nat) x,
  0 <= x < n -> x ^ (2 ^ Z.of_nat r) mod n = 1 ->
  x = 1 \/ x = n - 1 \/ square_loop (r - 1) x n = true.
Proof.
  induction r as [|r IH]; intros x Hx H.
  - change (2 ^ Z.of_nat 0) with 1 in H. rewrite Z.pow_1_r in H.
    rewrite Z.mod_small in H by lia. left. exact H.
  - assert (Hy : 0 <= (x * x) mod n < n) by (apply Z.mod_pos_bound; lia).
    assert (E : ((x * x) mod n) ^ (2 ^ Z.of_nat r) mod n = 1).
    { rewrite Z.mod_pow_l, <- Z.pow_2_r, <- Z.pow_mul_r by lia.
      rewrite <- Z.pow_succ_r, <- Nat2Z.inj_succ by lia. exact H. }
    destruct (IH _ Hy E) as [H1|[Hm|Hsq]].
    + destruct (square_root_of_one n x Hn Hx H1); auto.
    + destruct r as [|r].
      * change (2 ^ Z.of_nat 0) with 1 in E. rewrite Z.pow_1_r in E.
        rewrite Zmod_mod in E. lia.
      * right. right. cbn [Nat.sub]. cbn [square_loop].
        rewrite Hm, Z.eqb_refl. reflexivity.
    + destruct r as [|[|r]]; try discriminate Hsq.
      right. right. cbn [Nat.sub] in *. cbn [square_loop].
      destruct (_ =? _); [reflexivity|]. exact Hsq.
Qed.

Lemma witness_loop_prime n r s rng :
  Z.prime n -> 3 < n -> 0 <= r -> 0 <= s -> n - 1 = 2 ^ r * s ->
  forall k pos, witness_loop k n r s rng pos = Return (true, (pos + k)%nat).
Proof.
  intros Hn H3 Hr Hs E.
  induction k as [|k IH]; intros pos; cbn [witness_loop].
  - rewrite Nat.add_0_r. reflexivity.
  - unfold randrange. destruct (Z.ltb_spec 2 (n - 1)); [|lia]. cbn [bind].
    pose proof (Z.mod_pos_bound (rng pos) (n - 1 - 2) ltac:(lia)) as Hb.
    remember (2 + rng pos mod (n - 1 - 2)) as a eqn:Ea.
    unfold py_pow. destruct (Z.ltb_spec s 0); [lia|]. cbn [bind].
    remember (a ^ s mod n) as x eqn:Ex.
    assert (Hx : 0 <= x < n) by (subst x; apply Z.mod_pos_bound; lia).
    assert (Hf : x ^ (2 ^ Z.of_nat (Z.to_nat r)) mod n = 1).
    { rewrite Z2Nat.id by lia. subst x.
      rewrite Z.mod_pow_l, <- Z.pow_mul_r by (try apply Z.pow_nonneg; lia).
      rewrite (Z.mul_comm s), <- E.
      apply ZmodInv.Z.fermat_nz; [exact Hn|]. rewrite Z.mod_small; lia. }
    replace (Z.to_nat (r - 1)) with (Z.to_nat r - 1)%nat by lia.
    destruct (square_chain n Hn ltac:(lia) _ x Hx Hf) as [->|[->|Hsq]].
    + rewrite Z.eqb_refl. cbn [orb]. rewrite IH. do 2 f_equal. lia.
    + rewrite Z.eqb_refl, orb_true_r. rewrite IH. do 2 f_equal. lia.
    + rewrite Hsq. destruct (_ || _); rewrite IH; do 2 f_equal; lia.
Qed.

Lemma prime_odd n : Z.prime n -> 3 < n -> n mod 2 = 1.
Proof.
  intros [_ Hn] H3. pose proof (Z.mod_pos_bound n 2 ltac:(lia)).
  destruct (Z.eq_dec (n mod 2) 0) as [E|]; [|lia].
  exfalso. apply (Hn 2); [lia|]. apply Z.mod_divide; [lia | exact E].
Qed.

Lemma is_prime_of_prime n k rng pos :
  Z.prime n ->
  is_prime n k rng pos
  = Return (true, if n <=? 3 then pos else (pos + Z.to_nat k)%nat).
Proof.
  intros Hn. pose proof (Z.prime_ge_2 _ Hn) as H2. unfold is_prime.
  destruct (Z.leb_spec n 3) as [|H3].
  - destruct (Z.gtb_spec n 1); [reflexivity | lia].
  - rewrite (prime_odd n Hn H3). cbn [Z.eqb].
    destruct (halve_loop_spec (Z.to_nat (n - 1)) 0 (n - 1))
      as (r & s & -> & Hr & Hs & _ & E); [lia | lia |].
    rewrite Z.sub_0_r in E.
    apply witness_loop_prime; try assumption; lia.
Qed.

Lemma witness_loop_Return k : forall n r s rng pos,
  3 < n -> 0 <= s ->
  exists b pos', witness_loop k n r s rng pos = Return (b, pos') /\
                 (pos <= pos' <= pos + k)%nat.
Proof.
  induction k as [|k IH]; intros n r s rng pos H3 Hs; cbn [witness_loop].
  - exists true, pos. split; [reflexivity | lia].
  - unfold randrange. destruct (Z.ltb_spec 2 (n - 1)); [|lia]. cbn [bind].
    unfold py_pow. destruct (Z.ltb_spec s 0); [lia|]. cbn [bind].
    destruct (IH n r s rng (S pos) H3 Hs) as (b & pos' & E & Hp).
    destruct (_ || _); [|destruct (square_loop _ _ _)].
    + exists b, pos'. split; [exact E | lia].
    + exists b, pos'. split; [exact E | lia].
    + exists false, (S pos). split; [reflexivity | lia].
Qed.

Lemma is_prime_Return n k rng pos :
  exists b pos', is_prime n k rng pos = Return (b, pos') /\
                 (pos <= pos' <= pos + Z.to_nat k)%nat.
Proof.
  unfold is_prime. destruct (Z.leb_spec n 3) as [|H3].
  - exists (n >? 1), pos. split; [reflexivity | lia].
  - destruct (n mod 2 =? 0).
    + exists false, pos. split; [reflexivity | lia].
    + destruct (halve_loop_spec (Z.to_nat (n - 1)) 0 (n - 1))
        as (r & s & -> & Hr & Hs & _ & E); [lia | lia |].
      apply witness_loop_Return; lia.
Qed.

Lemma is_prime_true_inv n k rng pos pos' :
  is_prime n k rng pos = Return (true, pos') ->
  n = 2 \/ n = 3 \/ (3 < n /\ n mod 2 = 1).
Proof.
  unfold is_prime. destruct (Z.leb_spec n 3) as [|H3].
  - intros Hr. injection Hr as Hb _. apply Z.gtb_lt in Hb. lia.
  - destruct (Z.eqb_spec (n mod 2) 0) as [|Ho]; [discriminate|].
    intros _. pose proof (Z.mod_pos_bound n 2 ltac:(lia)). lia.
Qed.

Lemma prime_2 : Z.prime 2.
Proof. apply prime_check_sound. reflexivity. Qed.

Lemma prime_3 : Z.prime 3.
Proof. apply prime_check_sound. reflexivity. Qed.

(** X20.  For [n <= 3] and for even [n], [is_prime] answers without drawing
    any random base, and its answer is exact: [True] precisely when [n] is
    prime (that is, for 2 and 3 only). *)
Theorem is_prime_exact_without_randomness n k rng pos :
  n <= 3 \/ n mod 2 = 0 ->
  exists b, is_prime n k rng pos = Return (b, pos) /\
            (b = true <-> Z.prime n).
Proof.
  intros H. unfold is_prime. destruct (Z.leb_spec n 3) as [H3|H3].
  - exists (n >? 1). split; [reflexivity|]. split.
    + intros Hb. apply Z.gtb_lt in Hb.
      assert (n = 2 \/ n = 3) as [->| ->] by lia; [exact prime_2 | exact prime_3].
    + intros Hn. pose proof (Z.prime_ge_2 _ Hn). apply Z.gtb_lt. lia.
  - destruct H as [|He]; [lia|]. rewrite He. cbn [Z.eqb].
    exists false. split; [reflexivity|]. split; [discriminate|].
    intros Hn. pose proof (prime_odd n Hn H3). lia.
Qed.

Lemma is_prime_exact_without_randomness_witness :
  exists b, is_prime 24 5 demo_rng 0 = Return (b, 0%nat) /\
            (b = true <-> Z.prime 24).
Proof.
  apply (is_prime_exact_without_randomness 24 5 demo_rng 0).
  right. reflexivity.
Defined.

(** X21.  The decomposition loop of [is_prime] ends by its own test: for an
    odd [n > 3] it leaves [r >= 1] and an odd [s] with [n - 1 = 2^r * s]
    (the iteration bound of the model is never what stops it). *)
Theorem is_prime_decomposition n r s :
  3 < n -> n mod 2 = 1 ->
  halve_loop (Z.to_nat (n - 1)) 0 (n - 1) = (r, s) ->
  1 <= r /\ s mod 2 = 1 /\ n - 1 = 2 ^ r * s.
Proof.
  intros H3 Ho H.
  destruct (halve_loop_spec (Z.to_nat (n - 1)) 0 (n - 1))
    as (r' & s' & E & Hr & Hs & Hodd & Hn); [lia | lia |].
  rewrite E in H. injection H as <- <-. rewrite Z.sub_0_r in Hn.
  split; [|split; assumption].
  destruct (Z.eq_dec r' 0) as [->|]; [|lia].
  rewrite Z.pow_0_r, Z.mul_1_l in Hn.
  pose proof (Z.div_mod n 2 ltac:(lia)).
  pose proof (Z.div_mod s' 2 ltac:(lia)). lia.
Qed.

Lemma is_prime_decomposition_witness :
  1 <= 3 /\ 5 mod 2 = 1 /\ 41 - 1 = 2 ^ 3 * 5.
Proof.
  apply (is_prime_decomposition 41 3 5); reflexivity.
Defined.

(** X22.  [is_prime] never raises, for any integer [n] and any number of
    rounds: the guard [n <= 3] keeps [randrange(2, n - 1)] away from an empty
    range and the exponent [s] is never negative.  It draws at most [k]
    random bases. *)
Theorem is_prime_never_raises n k rng pos :
  exists b pos', is_prime n k rng pos = Return (b, pos') /\
                 (pos <= pos' <= pos + Z.to_nat k)%nat.
Proof. apply is_prime_Return. Qed.

(** X23.  Miller-Rabin never rejects a prime: for a prime [n], whatever
    bases are drawn and however many rounds are run, [is_prime] returns
    [True]; for [n > 3] it goes through all [k] rounds. *)
Theorem is_prime_accepts_primes n k rng pos :
  Z.prime n ->
  is_prime n k rng pos
  = Return (true, if n <=? 3 then pos else (pos + Z.to_nat k)%nat).
Proof. apply is_prime_of_prime. Qed.

Lemma is_prime_accepts_primes_witness :
  is_prime 23 5 demo_rng 0
  = Return (true, if 23 <=? 3 then 0%nat else (0 + Z.to_nat 5)%nat).
Proof.
  apply (is_prime_accepts_primes 23 5 demo_rng 0). exact prime_23.
Defined.

(** X24.  With no rounds to run ([k <= 0]) the test is vacuous: every odd
    [n > 3], prime or not, is reported prime. *)
Theorem is_prime_without_rounds n k rng pos :
  3 < n -> n mod 2 = 1 -> k <= 0 ->
  is_prime n k rng pos = Return (true, pos).
Proof.
  intros H3 Ho Hk. unfold is_prime.
  destruct (Z.leb_spec n 3); [lia|]. rewrite Ho. cbn [Z.eqb].
  destruct (halve_loop _ _ _) as [r s].
  replace (Z.to_nat k) with 0%nat by lia. reflexivity.
Qed.

Lemma is_prime_without_rounds_witness :
  is_prime 9 0 demo_rng 0 = Return (true, 0%nat).
Proof.
  apply (is_prime_without_rounds 9 0 demo_rng 0); [reflexivity .. | discriminate].
Defined.

(** ** Generating the modulus *)

Lemma lor_1 raw : Z.lor raw 1 = 2 * (raw / 2) + 1.
Proof.
  apply Z.bits_inj'. intros n Hn. rewrite Z.lor_spec.
  destruct (Z.eq_dec n 0) as [->|Hn0].
  - rewrite Z.testbit_odd_0. apply orb_true_r.
  - replace n with (Z.succ (n - 1)) by lia.
    rewrite Z.testbit_odd_succ by lia.
    rewrite <- Z.div2_div, Z.div2_spec, Z.shiftr_spec by lia.
    replace (n - 1 + 1) with (Z.succ (n - 1)) by lia.
    replace (Z.testbit 1 (Z.succ (n - 1))) with false; [apply orb_false_r|].
    symmetry. change 1 with (2 * 0 + 1) at 1.
    rewrite Z.testbit_odd_succ by lia. apply Z.testbit_0_l.
Qed.

Lemma generate_safe_prime_Some fuel : forall bits rng pos p pos',
  generate_safe_prime fuel bits rng pos = Return (Some (p, pos')) ->
  exists start mid,
    (pos <= start)%nat /\ (start < mid)%nat /\ 0 <= bits /\
    p = Z.lor (rng start mod 2 ^ bits) 1 /\
    is_prime p 5 rng (S start) = Return (true, mid) /\
    is_prime ((p - 1) / 2) 5 rng mid = Return (true, pos').
Proof.
  induction fuel as [|fuel IH]; intros bits rng pos p pos';
    cbn [generate_safe_prime]; [discriminate|].
  unfold getrandbits. destruct (Z.ltb_spec bits 0) as [|Hb]; [discriminate|].
  cbn [bind].
  destruct (is_prime_Return (Z.lor (rng pos mod 2 ^ bits) 1) 5 rng (S pos))
    as (b1 & p1 & E1 & Hp1).
  rewrite E1. cbn [bind fst snd]. destruct b1.
  - destruct (is_prime_Return
                ((Z.lor (rng pos mod 2 ^ bits) 1 - 1) / 2) 5 rng p1)
      as (b2 & p2 & E2 & Hp2).
    rewrite E2. cbn [bind fst snd]. destruct b2.
    + intros H. injection H as <- <-. exists pos, p1.
      repeat split; try assumption; lia.
    + intros H. apply IH in H.
      destruct H as (start & mid & H1 & H2 & H). exists start, mid.
      split; [lia|]. split; [lia|]. exact H.
  - intros H. apply IH in H.
    destruct H as (start & mid & H1 & H2 & H). exists start, mid.
    split; [lia|]. split; [lia|]. exact H.
Qed.

Lemma generate_safe_prime_facts fuel bits rng pos p pos' :
  generate_safe_prime fuel bits rng pos = Return (Some (p, pos')) ->
  p mod 2 = 1 /\ 5 <= p < 2 ^ bits /\ (p = 5 \/ p mod 4 = 3) /\
  (pos < pos')%nat /\
  exists start mid,
    is_prime p 5 rng start = Return (true, mid) /\
    is_prime ((p - 1) / 2) 5 rng mid = Return (true, pos').
Proof.
  intros H. apply generate_safe_prime_Some in H.
  destruct H as (start & mid & H1 & H2 & Hb & Hp & E1 & E2).
  pose proof (is_prime_true_inv _ _ _ _ _ E2) as Hq.
  destruct (is_prime_Return ((p - 1) / 2) 5 rng mid) as (b & q & E & Hpos).
  rewrite E2 in E. injection E as <- <-.
  set (raw := rng start mod 2 ^ bits) in *.
  assert (Hraw : 0 <= raw < 2 ^ bits)
    by (apply Z.mod_pos_bound, Z.pow_pos_nonneg; lia).
  rewrite lor_1 in Hp.
  assert (Hhalf : (p - 1) / 2 = raw / 2).
  { rewrite Hp. replace (2 * (raw / 2) + 1 - 1) with (raw / 2 * 2) by lia.
    apply Z.div_mul. lia. }
  rewrite Hhalf in Hq.
  assert (Hbits : bits <> 0).
  { intros ->. change (2 ^ 0) with 1 in Hraw.
    assert (raw = 0) by lia. rewrite H in Hq. cbn in Hq. lia. }
  assert (Hpow : 2 ^ bits = 2 * 2 ^ (bits - 1)).
  { rewrite <- Z.pow_succ_r by lia. f_equal. lia. }
  assert (raw / 2 < 2 ^ (bits - 1))
    by (apply Z.div_lt_upper_bound; lia).
  clearbody raw.
  split; [rewrite Hp, Z.add_comm, Z.mul_comm, Z.mod_add by lia; reflexivity|].
  split; [lia|]. split.
  { destruct Hq as [Hq|[Hq|(Hq & Ho)]]; [left; lia | right | right].
    - rewrite Hp, Hq. reflexivity.
    - pose proof (Z.div_mod (raw / 2) 2 ltac:(lia)) as Hd.
      rewrite Ho in Hd. rewrite Hp, Hd.
      replace (2 * (2 * (raw / 2 / 2) + 1) + 1)
        with (3 + raw / 2 / 2 * 4) by lia.
      rewrite Z.mod_add by lia. reflexivity. }
  split; [lia|].
  exists (S start), mid. split; assumption.
Qed.

Lemma generate_safe_prime_None fuel bits rng :
  0 <= bits <= 2 ->
  forall pos, generate_safe_prime fuel bits rng pos = Return None.
Proof.
  intros Hb. induction fuel as [|fuel IH]; intros pos;
    cbn [generate_safe_prime]; [reflexivity|].
  unfold getrandbits. destruct (Z.ltb_spec bits 0); [lia|]. cbn [bind].
  assert (Hpow : 0 < 2 ^ bits <= 2 ^ 2)
    by (split; [apply Z.pow_pos_nonneg | apply Z.pow_le_mono_r]; lia).
  change (2 ^ 2) with 4 in Hpow.
  pose proof (Z.mod_pos_bound (rng pos) (2 ^ bits) ltac:(lia)) as Hraw.
  rewrite lor_1.
  assert (Hc : rng pos mod 2 ^ bits / 2 = 0 \/ rng pos mod 2 ^ bits / 2 = 1).
  { pose proof (Z.div_mod (rng pos mod 2 ^ bits) 2 ltac:(lia)).
    pose proof (Z.mod_pos_bound (rng pos mod 2 ^ bits) 2 ltac:(lia)). lia. }
  destruct Hc as [-> | ->].
  - change (is_prime (2 * 0 + 1) 5 rng (S pos)) with
      (@Return (bool * nat) (false, S pos)).
    cbn [bind fst snd]. apply IH.
  - change (is_prime (2 * 1 + 1) 5 rng (S pos)) with
      (@Return (bool * nat) (true, S pos)).
    cbn [bind fst snd].
    change (is_prime ((2 * 1 + 1 - 1) / 2) 5 rng (S pos)) with
      (@Return (bool * nat) (false, S pos)).
    cbn [bind fst snd]. apply IH.
Qed.

(** X25.  Whatever [generate_safe_prime] returns has passed both
    Miller-Rabin tests, on [p] and on [(p - 1) // 2]; it is odd, at least 5,
    below [2^bits], and, 5 apart, congruent to 3 modulo 4.  At least one
    random draw was made. *)
Theorem generate_safe_prime_result fuel bits rng pos p pos' :
  generate_safe_prime fuel bits rng pos = Return (Some (p, pos')) ->
  p mod 2 = 1 /\ 5 <= p < 2 ^ bits /\ (p = 5 \/ p mod 4 = 3) /\
  (pos < pos')%nat /\
  exists start mid,
    is_prime p 5 rng start = Return (true, mid) /\
    is_prime ((p - 1) / 2) 5 rng mid = Return (true, pos').
Proof. apply generate_safe_prime_facts. Qed.

Lemma generate_safe_prime_result_witness :
  5 mod 2 = 1 /\ 5 <= 5 < 2 ^ 6 /\ (5 = 5 \/ 5 mod 4 = 3) /\
  (0 < 6)%nat /\
  exists start mid,
    is_prime 5 5 demo_rng start = Return (true, mid) /\
    is_prime ((5 - 1) / 2) 5 demo_rng mid = Return (true, 6%nat).
Proof.
  apply (generate_safe_prime_result 20 6 demo_rng 0 5 6). reflexivity.
Defined.

(** X26.  For [bits] of 0, 1 or 2 the only candidates are 1 and 3, neither
    of which passes both tests: the loop of [generate_safe_prime] never
    exits, however many iterations are allowed.  A negative [bits] makes
    [getrandbits] raise [ValueError] on the first iteration. *)
Theorem generate_safe_prime_small_bits fuel bits rng pos :
  bits <= 2 ->
  generate_safe_prime (S fuel) bits rng pos
  = if bits <? 0 then Raise ValueError else Return None.
Proof.
  intros Hb. destruct (Z.ltb_spec bits 0) as [Hn|Hn].
  - cbn [generate_safe_prime]. unfold getrandbits.
    destruct (Z.ltb_spec bits 0); [reflexivity | lia].
  - apply generate_safe_prime_None. lia.
Qed.

Lemma generate_safe_prime_small_bits_witness :
  generate_safe_prime 8 2 demo_rng 0
  = if 2 <? 0 then Raise ValueError else Return None.
Proof.
  apply (generate_safe_prime_small_bits 7 2 demo_rng 0). discriminate.
Defined.

(** X27.  A candidate that really is a safe prime is never passed over:
    if the first candidate [p = getrandbits(bits) | 1] is prime together
    with [(p - 1) // 2], [generate_safe_prime] returns it from the first
    iteration. *)
Theorem generate_safe_prime_accepts_safe_prime fuel bits rng pos :
  0 <= bits ->
  Z.prime (Z.lor (rng pos mod 2 ^ bits) 1) ->
  Z.prime ((Z.lor (rng pos mod 2 ^ bits) 1 - 1) / 2) ->
  exists pos',
    generate_safe_prime (S fuel) bits rng pos
    = Return (Some (Z.lor (rng pos mod 2 ^ bits) 1, pos')).
Proof.
  intros Hb Hp Hq. cbn [generate_safe_prime]. unfold getrandbits.
  destruct (Z.ltb_spec bits 0); [lia|]. cbn [bind].
  rewrite (is_prime_of_prime _ 5 rng (S pos) Hp). cbn [bind fst snd].
  rewrite (is_prime_of_prime _ 5 rng _ Hq). cbn [bind fst snd].
  eexists. reflexivity.
Qed.

Lemma generate_safe_prime_accepts_safe_prime_witness :
  exists pos',
    generate_safe_prime 1 6 demo_rng 0
    = Return (Some (Z.lor (demo_rng 0 mod 2 ^ 6) 1, pos')).
Proof.
  apply (generate_safe_prime_accepts_safe_prime 0 6 demo_rng 0).
  - discriminate.
  - apply prime_check_sound. reflexivity.
  - exact prime_2.
Defined.

(** X28.  The generator and the constructor fit together: any modulus
    [generate_safe_prime] returns exceeds 2, so [randrange(2, prime)] in
    [setup_initial_shares] has a non-empty range and the constructor
    returns a manager for every [threshold <= initial_members]. *)
Theorem generated_modulus_suits_constructor fuel bits rng pos p pos' t n rng' :
  generate_safe_prime fuel bits rng pos = Return (Some (p, pos')) ->
  t <= n ->
  exists self, init t n p rng' = Return self /\
               prime self = p /\ threshold self = t /\
               2 <= master_secret self < p.
Proof.
  intros H Htn. apply generate_safe_prime_facts in H.
  destruct H as (_ & Hp & _).
  destruct (init_total t n p rng' Htn ltac:(lia)) as (self & E).
  exists self. split; [exact E|].
  apply init_Return in E.
  destruct E as (secret & rest & _ & _ & Hs & _ & ->).
  cbn [prime threshold master_secret]. auto.
Qed.

Lemma generated_modulus_suits_constructor_witness :
  exists self, init 2 3 5 demo_rng = Return self /\
               prime self = 5 /\ threshold self = 2 /\
               2 <= master_secret self < 5.
Proof.
  apply (generated_modulus_suits_constructor 20 6 demo_rng 0 5 6 2 3 demo_rng).
  - reflexivity.
  - discriminate.
Defined.

(** ** The demonstration run *)

(** X29.  The demonstration run of [main] has one outcome: for a prime
    modulus above 6, whatever the hash function and the random draws, the
    first two signatures verify, member 6 is added, member 1 is removed, the
    signer list holding the removed member gets no signature ([Failed]),
    and the signature of the remaining members verifies. *)
Theorem main_demonstration_outcome (sha256_int : string -> Z) (p : Z) (rng : nat -> Z) :
  Z.prime p -> 6 < p ->
  main sha256_int p rng
  = Return {| initial_signature_valid := true;
              new_member_added := true;
              signature_with_new_member_valid := true;
              member_removed := true;
              signature_with_removed_member := false;
              signature_with_remaining_members_valid := true |}.
Proof.
  intros Hp H6. unfold main.
  destruct (init_total 3 5 p rng ltac:(lia) ltac:(lia)) as (m0 & E0).
  rewrite E0. cbn [bind].
  destruct (init_consistent 3 5 p rng m0 E0 Hp ltac:(lia) ltac:(lia))
    as (F & HC0 & Hs0 & Ht0 & Hp0 & Hm0).
  change (range 1 (5 + 1)) with [1; 2; 3; 4; 5] in Hm0.
  assert (HK0 : keyed m0 F) by (split; [exact HC0 | rewrite Hp0; exact Hs0]).
  (* the first signature *)
  destruct (sign_verify_keyed sha256_int m0 F "Block #1000 checkpoint"
              [1; 2; 3] HK0) as (S1 & V1).
  { rewrite Ht0. reflexivity. }
  { distinct_literals. }
  { intros i [<-|[<-|[<-|[]]]]; unfold active_member; rewrite Hm0;
      reflexivity. }
  rewrite S1. cbn [bind verify_signed]. rewrite V1. cbn [bind].
  (* member 6 joins *)
  rewrite (add_member_success m0 F 6 HC0);
    [| rewrite Hm0; reflexivity | rewrite Hm0, Ht0; cbn; lia].
  cbn [bind fst snd].
  set (m1 := with_members m0 _ _).
  assert (HK1 : keyed m1 F).
  { apply (add_member_keyed m0 F 6 (joined_member F (prime m0) 6) m1 HK0).
    - apply (add_member_success m0 F 6 HC0);
        [rewrite Hm0; reflexivity | rewrite Hm0, Ht0; cbn; lia].
    - rewrite Hm0, Hp0. cbn [map filter initial_member Member.is_active Member.id].
      rewrite !Z.mod_small by lia. cbn [In]. lia. }
  assert (Ht1 : threshold m1 = 3) by exact Ht0.
  assert (Hp1 : prime m1 = p) by exact Hp0.
  assert (Hm1 : members m1
                = map (initial_member F p) [1; 2; 3; 4; 5]
                  ++ [joined_member F p 6]).
  { subst m1. cbn [members with_members]. rewrite Hm0, Hp0. reflexivity. }
  (* the second signature *)
  rewrite (sign_message_firstn sha256_int m1) by (rewrite Ht1; cbn; lia).
  rewrite Ht1. change (firstn (Z.to_nat 3) [1; 2; 3; 4]) with [1; 2; 3].
  destruct (sign_verify_keyed sha256_int m1 F "Block #1000 checkpoint"
              [1; 2; 3] HK1) as (S2 & V2).
  { rewrite Ht1. reflexivity. }
  { distinct_literals. }
  { intros i [<-|[<-|[<-|[]]]]; unfold active_member; rewrite Hm1;
      reflexivity. }
  rewrite S2. cbn [bind verify_signed]. rewrite V2. cbn [bind].
  (* member 1 leaves *)
  destruct (remove_member_total m1 F 1 (fun k => rng (3 + k)%nat)
              (initial_member F p 1) (proj1 HK1)) as (m2 & E2).
  { rewrite Hp1. lia. }
  { rewrite Hm1. reflexivity. }
  { reflexivity. }
  { rewrite Hm1, Ht1. cbn. lia. }
  rewrite E2. cbn [bind fst snd].
  destruct (remove_member_keyed m1 F 1 _ m2 HK1 E2) as (F' & HK2 & _).
  destruct (remove_member_Return_true m1 1 _ m2 E2)
    as (leaving & G & _ & _ & _ & Hm2).
  assert (Ht2 : threshold m2 = 3) by (rewrite Hm2; exact Ht1).
  rewrite Hm1 in Hm2.
  (* signing with the removed member *)
  rewrite (sign_message_inactive sha256_int m2 _ [1; 2; 3] 1);
    [| rewrite Ht2; lia | rewrite Ht2; left; reflexivity
     | rewrite Hm2; reflexivity].
  cbn [bind truthy].
  (* signing with the remaining members *)
  destruct (sign_verify_keyed sha256_int m2 F' "Block #1000 checkpoint"
              [2; 3; 4] HK2) as (S4 & V4).
  { rewrite Ht2. reflexivity. }
  { distinct_literals. }
  { intros i [<-|[<-|[<-|[]]]]; rewrite Hm2; reflexivity. }
  rewrite S4. cbn [bind verify_signed]. rewrite V4. reflexivity.
Qed.

Lemma main_demonstration_outcome_witness :
  main demo_hash 23 demo_rng
  = Return {| initial_signature_valid := true;
              new_member_added := true;
              signature_with_new_member_valid := true;
              member_removed := true;
              signature_with_removed_member := false;
              signature_with_remaining_members_valid := true |}.
Proof.
  apply (main_demonstration_outcome demo_hash 23 demo_rng).
  - exact prime_23.
  - reflexivity.
Defined.
